(** * flexcore: generic nodes, settings backends and region-aware ports

    A shallow embedding of
      - src/nodes/generic.hpp      (transform_node, n_ary_switch, watch_node, on_changed)
      - src/settings/settings.hpp  (const and json-file setting backends)
      - src/ports/region_aware.hpp (same_region, construct_buffer)
    together with the properties the specification states about them.

    C++ member functions become computations in a small state-and-exception
    monad.  A computation runs on a [machine]: the mutable members of the
    node, the state of everything the node is connected to, and a trace of
    the port operations the node performed (so that "exactly once" is a
    statement about the trace). *)

From Stdlib Require Import ZArith.
From stdpp Require Import base option list gmap strings.

Set Default Proof Using "Type".

(** ** Exceptions and outcomes *)

(** What a C++ call can end with besides a value. *)
Inductive exn : Type :=
  | unbound_sink       (* state_sink::get() without an upstream source *)
  | out_of_range       (* std::map::at on an absent key; the spec's UnknownKey *)
  | assertion_failed   (* a failed assert(...) *)
  | null_dereference   (* operator-> on an empty shared_ptr *)
  | cereal_Exception   (* cereal::Exception and its subclasses *)
  | foreign_exception. (* any exception that is not a cereal::Exception *)

Inductive outcome (A : Type) : Type :=
  | Ok (a : A)
  | Throw (e : exn).
Arguments Ok {A} a.
Arguments Throw {A} e.

#[global] Instance exn_eq_dec : EqDecision exn.
Proof. solve_decision. Defined.

#[global] Instance outcome_ret : MRet outcome := fun A a => Ok a.
#[global] Instance outcome_bind : MBind outcome := fun A B f c =>
  match c with
  | Ok a => f a
  | Throw e => Throw e
  end.

#[global] Instance outcome_fmap : FMap outcome := fun A B f c =>
  match c with
  | Ok a => Ok (f a)
  | Throw e => Throw e
  end.

Definition returns {A : Type} (o : outcome A) : bool :=
  match o with Ok _ => true | Throw _ => false end.

(** ** The machine a member function runs on *)

Record machine (N W E : Type) : Type := Machine {
  node : N;        (* mutable members of the node itself *)
  env : W;         (* state of the sources and sinks connected to the node *)
  trace : list E;  (* port operations performed so far, oldest first *)
}.
Arguments Machine {N W E} node env trace.
Arguments node {N W E} m.
Arguments env {N W E} m.
Arguments trace {N W E} m.

(** A computation of the connected world alone: an upstream callable or a
    downstream handler.  Side effects survive an exception. *)
Definition ext (W A : Type) : Type := W -> outcome A * W.

(** A member function of a node. *)
Definition M (N W E A : Type) : Type :=
  machine N W E -> outcome A * machine N W E.

Section monad.
Context {N W E : Type}.

#[global] Instance M_ret : MRet (M N W E) := fun A a m => (Ok a, m).

#[global] Instance M_bind : MBind (M N W E) := fun A B f c m =>
  match c m with
  | (Ok a, m') => f a m'
  | (Throw e, m') => (Throw e, m')
  end.

Definition throw {A : Type} (e : exn) : M N W E A :=
  fun m => (Throw e, m).

(** [try { c } catch (handled) { h }]: every other exception propagates. *)
Definition try_catch {A : Type} (c : M N W E A) (handled : exn -> bool)
    (h : exn -> M N W E A) : M N W E A :=
  fun m =>
    match c m with
    | (Ok a, m') => (Ok a, m')
    | (Throw e, m') => if handled e then h e m' else (Throw e, m')
    end.

(** [assert(b)] *)
Definition assert (b : bool) : M N W E unit :=
  if b then mret tt else throw assertion_failed.

Definition observe (e : E) : M N W E unit :=
  fun m => (Ok tt, Machine (node m) (env m) (trace m ++ [e])).

Definition get_node : M N W E N :=
  fun m => (Ok (node m), m).

Definition put_node (n : N) : M N W E unit :=
  fun m => (Ok tt, Machine n (env m) (trace m)).

(** Run a computation of the connected world. *)
Definition external {A : Type} (f : ext W A) : M N W E A :=
  fun m => let '(r, w) := f (env m) in (r, Machine (node m) w (trace m)).
End monad.

(** A block with a local variable, initialised to [l]; inside the block the
    variable sits next to the node's members, at the block's end it is
    gone. *)
Definition with_local {N W E L A : Type} (l : L) (c : M (N * L) W E A)
    : M N W E A :=
  fun m =>
    let '(r, m') := c (Machine (node m, l) (env m) (trace m)) in
    (r, Machine (node m').1 (env m') (trace m')).

(** ** Ports *)

Section ports.
Context {N W E : Type}.

(** Modelled from the spec: ports/ports.hpp is not among the sources.
    [state_sink<T>] is a pull consumer; [get()] "calls the upstream
    callable bound at connection time" and "fails with UnboundSink if
    none".  The sink is the callable it is bound to, if any. *)
Definition state_sink (T : Type) : Type := option (ext W T).

(** [sink.get()]; [name] is the trace entry that records the pull. *)
Definition sink_get {T : Type} (name : E) (sink : state_sink T) : M N W E T :=
  observe name;;
  match sink with
  | None => throw unbound_sink
  | Some upstream => external upstream
  end.

(** Modelled from the spec: ports/event_ports.hpp is not among the
    sources.  [event_out_port<T>] is a push producer; [fire(v)]
    "synchronously invokes every bound downstream handler with v", in
    registration order, and "exceptions from one handler must not prevent
    invocation of the others".  The port is the list of its handlers. *)
Definition event_out_port (T : Type) : Type := list (T -> ext W unit).

Fixpoint deliver {T : Type} (handlers : event_out_port T) (v : T) (w : W) : W :=
  match handlers with
  | [] => w
  | h :: rest => deliver rest v (snd (h v w))
  end.

(** [port.fire(v)]; [name v] is the trace entry that records the event. *)
Definition fire {T : Type} (name : T -> E) (port : event_out_port T) (v : T)
    : M N W E unit :=
  observe (name v);;
  external (fun w => (Ok tt, deliver port v w)).
End ports.
Arguments state_sink W T : clear implicits.
Arguments event_out_port W T : clear implicits.

(** ** transform_node (generic.hpp, lines 20-47) *)

Module Transform.
Section transform_node.
Context {W T P R : Type}.

Inductive obs : Type :=
  | PullParam              (* param.get() *)
  | CallOp (x : T) (p : P). (* op(x, p) *)

(** [bin_op op] is any callable of two arguments; [param] is the sink the
    second argument is pulled from. *)
Record transform_node : Type := {
  op : T -> P -> ext W R;
  param : state_sink W P;
}.

(** [decltype(auto) operator()(const data_t& in) { return op(in, param.get()); }] *)
Definition call (n : transform_node) (x : T) : M unit W obs R :=
  p ← sink_get PullParam (param n);
  observe (CallOp x p);;
  external (op n x p).

(** [transform(op)] *)
Definition transform (o : T -> P -> ext W R) (bound : state_sink W P)
    : transform_node :=
  {| op := o; param := bound |}.

(** How often a trace pulled [param], and how often it invoked [op]. *)
Definition pulls (tr : list obs) : nat :=
  length (List.filter (fun e => match e with PullParam => true | _ => false end) tr).

Definition op_calls (tr : list obs) : nat :=
  length (List.filter (fun e => match e with CallOp _ _ => true | _ => false end) tr).
End transform_node.
Arguments obs T P : clear implicits.
Arguments transform_node W T P R : clear implicits.
End Transform.

(** ** n_ary_switch, state variant (generic.hpp, lines 65-93) *)

Module StateSwitch.
Section n_ary_switch.
Context {W T K : Type} `{Countable K}.

Inductive obs : Type :=
  | PullControl        (* index.get() *)
  | PullIn (k : K).    (* in_ports.at(k).get() *)

(** [typedef typename in_port<data_t, state_tag>::type port_t;] *)
Definition port_t : Type := state_sink W T.

(** [state_sink<key_t> index] is wired once; [in_ports] is the mutable
    member [std::map<key_t, port_t>], kept as the node state. *)
Record n_ary_switch : Type := {
  index : state_sink W K;
}.

Local Abbreviation in_ports_t := (gmap K port_t).

(** [auto in(key_t port) noexcept { return in_ports[port]; }]:
    [operator[]] inserts a default-constructed (unbound) port for an
    absent key. *)
Definition in_ (sw : n_ary_switch) (port : K) : M in_ports_t W obs port_t :=
  in_ports ← get_node;
  match in_ports !! port with
  | Some p => mret p
  | None => put_node (<[port := None]> in_ports);; mret None
  end.

(** [out_port([this](){ return in_ports.at(index.get()).get(); })];
    [out().get()] runs this callable. *)
Definition out_get (sw : n_ary_switch) : M in_ports_t W obs T :=
  k ← sink_get PullControl (index sw);
  in_ports ← get_node;
  match in_ports !! k with
  | None => throw out_of_range
  | Some p => sink_get (PullIn k) p
  end.
End n_ary_switch.
Arguments obs K : clear implicits.
Arguments n_ary_switch W K : clear implicits.
End StateSwitch.

(** ** n_ary_switch, event variant (generic.hpp, lines 95-142) *)

Module EventSwitch.
Section n_ary_switch.
Context {W T K : Type} `{Countable K}.

Inductive obs : Type :=
  | PullControl        (* index.get() *)
  | FireOut (v : T).   (* out().fire(v) *)

(** An input port is the closure
    [[this, port](const data_t& in) { forward_call(in, port); }]:
    all it holds besides [this] is the captured key. *)
Record port_t : Type := { captured_port : K }.

Record n_ary_switch : Type := {
  index : state_sink W K;
  out_port : event_out_port W T;
}.

Local Abbreviation in_ports_t := (gmap K port_t).

(** [void forward_call(data_t event, key_t port)] *)
Definition forward_call (sw : n_ary_switch) (event : T) (port : K)
    : M in_ports_t W obs unit :=
  in_ports ← get_node;
  assert (negb (bool_decide (in_ports = ∅)));;
  assert (bool_decide (is_Some (in_ports !! port)));;
  k ← sink_get PullControl (index sw);
  if bool_decide (port = k)
  then fire FireOut (out_port sw) event
  else mret tt.

(** [auto in(key_t port)] *)
Definition in_ (sw : n_ary_switch) (port : K) : M in_ports_t W obs port_t :=
  in_ports ← get_node;
  (if bool_decide (in_ports !! port = None)
   then put_node (<[port := {| captured_port := port |}]> in_ports)
   else mret tt);;
  in_ports ← get_node;
  assert (negb (bool_decide (in_ports = ∅)));;
  match in_ports !! port with
  | Some p => mret p
  | None => throw out_of_range
  end.

(** An event arriving at an input port runs the port's closure. *)
Definition port_receive (sw : n_ary_switch) (p : port_t) (v : T)
    : M in_ports_t W obs unit :=
  forward_call sw v (captured_port p).

(** Every entry of [in_ports] was emplaced by [in] under the key its
    closure captured. *)
Definition ports_own_keys (in_ports : in_ports_t) : Prop :=
  forall (k : K) (p : port_t), in_ports !! k = Some p -> captured_port p = k.

(** The map [in] leaves behind: a fresh closure under an absent key. *)
Definition after_in (in_ports : in_ports_t) (k : K) : in_ports_t :=
  match in_ports !! k with
  | Some _ => in_ports
  | None => <[k := {| captured_port := k |}]> in_ports
  end.

(** What can happen to the switch once it is wired: a client asks for an
    input port, or pushes an event into some port, or the connected world
    moves on by itself ([in_ports] is private to the switch). *)
Inductive step (sw : n_ary_switch)
    : machine in_ports_t W obs -> machine in_ports_t W obs -> Prop :=
  | step_in (k : K) (m m' : machine in_ports_t W obs) (r : outcome port_t) :
      in_ sw k m = (r, m') -> step sw m m'
  | step_receive (p : port_t) (v : T) (m m' : machine in_ports_t W obs)
      (r : outcome unit) :
      port_receive sw p v m = (r, m') -> step sw m m'
  | step_world (m : machine in_ports_t W obs) (w' : W) :
      step sw m (Machine (node m) w' (trace m)).
End n_ary_switch.
Arguments obs T : clear implicits.
Arguments port_t K : clear implicits.
Arguments n_ary_switch W T K : clear implicits.
End EventSwitch.

(** ** watch_node and on_changed (generic.hpp, lines 154-209) *)

Module Watch.
Section watch_node.
Context {W T PS : Type}.

Inductive obs : Type :=
  | ReadIn                        (* in_port.get() *)
  | EvalPred (x : T) (b : bool)   (* pred(x), with its result *)
  | FireOut (x : T).              (* out_port.fire(x) *)

(** [predicate pred] is held by value and may carry state of its own (a
    [mutable] lambda): [PS] is that state, kept as the node state. *)
Record watch_node : Type := {
  pred : PS -> T -> bool * PS;
  in_port : state_sink W T;
  out_port : event_out_port W T;
}.

(** [pred(tmp)] *)
Definition call_pred (n : watch_node) (x : T) : M PS W obs bool :=
  s ← get_node;
  let '(b, s') := pred n s x in
  put_node s';;
  observe (EvalPred x b);;
  mret b.

(** The callable returned by [check_tick()]:
    [[this]() { const auto tmp = in_port.get(); if (pred(tmp)) out_port.fire(tmp); }] *)
Definition check_tick (n : watch_node) : M PS W obs unit :=
  tmp ← sink_get ReadIn (in_port n);
  b ← call_pred n tmp;
  if (b : bool) then fire FireOut (out_port n) tmp else mret tt.

(** [watch(pred, data_t())] *)
Definition watch (p : PS -> T -> bool * PS) (i : state_sink W T)
    (o : event_out_port W T) : watch_node :=
  {| pred := p; in_port := i; out_port := o |}.
End watch_node.
Arguments obs T : clear implicits.
Arguments watch_node W T PS : clear implicits.

Section on_changed.
Context {W T : Type} `{EqDecision T}.

(** The lambda of [on_changed]; its state is the captured
    [std::shared_ptr<data_t> last], [nullptr] at first:
    [bool check = last && ( *last == in );
     last = std::make_shared<data_t>(in);
     return check;] *)
Definition on_changed_pred (last : option T) (x : T) : bool * option T :=
  let check :=
    match last with
    | Some l => bool_decide (l = x)
    | None => false
    end in
  (check, Some x).

(** [on_changed<data_t>()]; the node starts with [last = nullptr]. *)
Definition on_changed (i : state_sink W T) (o : event_out_port W T)
    : watch_node W T (option T) :=
  watch on_changed_pred i o.

Definition on_changed_init : option T := None.
End on_changed.

Section ticks.
Context {W T PS : Type}.

(** The values fired during one stretch of the trace. *)
Definition fired (tr : list (obs T)) : list T :=
  omap (fun e => match e with FireOut x => Some x | _ => None end) tr.

(** How often a trace read [in], and the predicate evaluations it made. *)
Definition reads (tr : list (obs T)) : nat :=
  length (List.filter (fun e => match e with ReadIn => true | _ => false end) tr).

Definition evaluations (tr : list (obs T)) : list (T * bool) :=
  omap (fun e => match e with EvalPred x b => Some (x, b) | _ => None end) tr.

(** Invoke the tick callable [count] times in a row; the result lists,
    tick by tick, the values fired on [out] during that tick.  A tick
    that throws ends the run. *)
Fixpoint run_ticks (n : watch_node W T PS) (count : nat) (s : PS) (w : W)
    : list (list T) :=
  match count with
  | O => []
  | S count' =>
      match check_tick n (Machine s w []) with
      | (Ok _, m) => fired (trace m) :: run_ticks n count' (node m) (env m)
      | (Throw _, m) => [fired (trace m)]
      end
  end.
End ticks.
End Watch.

(** ** Setting backends (settings.hpp) *)

Module Settings.

(** [struct setting_id { std::string key; };] *)
Record setting_id : Type := { key : string }.

Section setter.
Context {N W D : Type}.

Inductive obs : Type :=
  | CallSetter (v : D).   (* setter(v) *)

(** [setter_t] is a callback taking the value. *)
Definition setter_t : Type := D -> ext W unit.

(** [setter(v)] *)
Definition call_setter (setter : setter_t) (v : D) : M N W obs unit :=
  observe (CallSetter v);;
  external (setter v).

(** The values the setter was called with. *)
Definition setter_calls (tr : list obs) : list D :=
  (fun e => match e with CallSetter v => v end) <$> tr.
End setter.
Arguments obs D : clear implicits.
Arguments setter_t W D : clear implicits.

(** [class const_setting_backend_facade]: no members. *)
Module const_setting_backend_facade.
Section facade.
Context {W D : Type}.

(** [register_setting(setting_id, data_t initial_v, setter_t setter)
    { setter(initial_v); }] *)
Definition register_setting (id : setting_id) (initial_v : D)
    (setter : setter_t W D) : M unit W (obs D) unit :=
  call_setter setter initial_v.

(** The overload with a trailing [region_t&], which is ignored. *)
Definition register_setting_region {region_t : Type} (id : setting_id)
    (initial_v : D) (setter : setter_t W D) (region : region_t)
    : M unit W (obs D) unit :=
  call_setter setter initial_v.
End facade.
End const_setting_backend_facade.

(** [class json_file_setting_facade]: its one member is [json_archive
    archive], kept as the node state. *)
Module json_file_setting_facade.
Section constructor.
Context {stream_t A : Type}.

(** [json_file_setting_facade(std::istream& stream) : archive(stream)]:
    the archive is built from the stream, by cereal's constructor, for
    which [open] stands; it may throw, and then there is no facade. *)
Definition construct (open : stream_t -> outcome A) (stream : stream_t)
    : outcome A :=
  open stream.
End constructor.

Section facade.
Context {W D A : Type}.

(** cereal is an external library.  [load name value a] stands for
    [archive(cereal::make_nvp(name, value))] on an archive in state [a];
    [value] is passed by reference, so the answer is how the call ends,
    what the variable holds when it ends (also when it ends in an
    exception), and the archive afterwards. *)
Variable load : string -> D -> A -> outcome unit * D * A.

(** [archive(cereal::make_nvp(name, value))], with the local [value] next
    to the [archive] member. *)
Definition archive_nvp (name : string) : M (A * D) W (obs D) unit :=
  '(a, value) ← get_node;
  let '(r, value', a') := load name value a in
  put_node (a', value');;
  match r with
  | Ok _ => mret tt
  | Throw e => throw e
  end.

(** [catch(cereal::Exception& ex)] *)
Definition is_cereal_Exception (e : exn) : bool :=
  bool_decide (e = cereal_Exception).

(** [auto value = initial_v;
     try { archive(cereal::make_nvp(id.key, value)); }
     catch(cereal::Exception& ex) { (void)ex; }
     setter(value);]
    The handler does nothing: [value] stays as the archive left it. *)
Definition register_setting (id : setting_id) (initial_v : D)
    (setter : setter_t W D) : M A W (obs D) unit :=
  with_local initial_v
    (try_catch (archive_nvp (key id)) is_cereal_Exception (fun ex => mret tt);;
     '(_, value) ← get_node;
     call_setter setter value).

(** The overload with a trailing [region_t&]:
    [register_setting(id, initial_v, setter);] *)
Definition register_setting_region {region_t : Type} (id : setting_id)
    (initial_v : D) (setter : setter_t W D) (region : region_t)
    : M A W (obs D) unit :=
  register_setting id initial_v setter.
End facade.
End json_file_setting_facade.

(** Modelled from the spec: cereal's JSONInputArchive is not among the
    sources.  The json-file backend "reads a keyed value from an input
    stream"; [json_document] is the JSON object the archive's constructor
    got out of the stream, here with integer members.  Reading a name the
    document lacks raises a [cereal::Exception] before anything is
    written; what the constructor does with an empty or malformed stream
    is cereal's matter and has no model here. *)
Definition json_document : Type := gmap string Z.

Definition json_load (name : string) (value : Z) (doc : json_document)
    : outcome unit * Z * json_document :=
  match doc !! name with
  | Some v => (Ok tt, v, doc)
  | None => (Throw cereal_Exception, value, doc)
  end.

(** A setting whose [data_t] is [struct point { int a; int b; }] with
    [serialize(ar) { ar(CEREAL_NVP(a), CEREAL_NVP(b)); }]: cereal finds the
    object stored under the name and then loads the fields one after the
    other, each straight into the variable; the first field the object
    lacks raises a [cereal::Exception], with the fields before it already
    written. *)
Definition point_document : Type := gmap string (gmap string Z).

Definition point_load (name : string) (value : Z * Z) (doc : point_document)
    : outcome unit * (Z * Z) * point_document :=
  match doc !! name with
  | None => (Throw cereal_Exception, value, doc)
  | Some fields =>
      match fields !! "a"%string with
      | None => (Throw cereal_Exception, value, doc)
      | Some a =>
          match fields !! "b"%string with
          | None => (Throw cereal_Exception, (a, value.2), doc)
          | Some b => (Ok tt, (a, b), doc)
          end
      end
  end.

(** [class setting<data_t, backend_facade>]: the constructor registers the
    callback [[this](data_t i) { cache = i; }]; the connected world of the
    backend is the [cache] member. *)
Definition write_cache {D : Type} : setter_t D D :=
  fun i _ => (Ok tt, i).

(** [setting(id, backend, initial_value)] over the json-file backend,
    followed by [operator()()]: the value of [cache], when the constructor
    returns. *)
Definition json_setting_value {D A : Type}
    (load : string -> D -> A -> outcome unit * D * A) (id : setting_id) (archive : A) (initial_value : D) : outcome D :=
  match json_file_setting_facade.register_setting load id initial_value
          write_cache (Machine archive initial_value []) with
  | (Ok _, m) => Ok (env m)
  | (Throw e, _) => Throw e
  end.
End Settings.

(** ** Region-aware ports (region_aware.hpp, parallelregion.hpp) *)

Module Region.
Section region_aware.
(** [class region_id {}] is compared with an [operator==] that
    parallelregion.hpp declares and does not define; [tick] stands for
    [event_out_port<void>]. *)
Context {region_id tick : Type}.
Variable region_id_eq : region_id -> region_id -> bool.

(** [class region_info]: what its three virtual functions return. *)
Record region_info : Type := {
  get_id : region_id;
  switch_tick : tick;
  work_tick : tick;
}.

(** Regions are owned through [std::shared_ptr]; the store holds the
    regions that still have an owner, by address. *)
Local Abbreviation loc := positive.
Local Abbreviation region_store := (gmap loc region_info).

(** [struct region_aware : port_t] adds
    [std::weak_ptr<region_info> parent_region_info]. *)
Record region_aware (port_t : Type) : Type := {
  base : port_t;
  parent_region_info : loc;
}.
Arguments base {port_t} r.
Arguments parent_region_info {port_t} r.

(** [weak_ptr::lock()]: an empty pointer once the region is gone. *)
Definition lock (wp : loc) (h : region_store) : option region_info :=
  h !! wp.

(** [operator->] on the pointer [lock()] returned. *)
Definition arrow {A : Type} (p : option A) : outcome A :=
  match p with
  | Some a => Ok a
  | None => Throw null_dereference
  end.

(** [return source.parent_region_info.lock()->get_id()
        == sink.parent_region_info.lock()->get_id();] *)
Definition same_region {source_t sink_t : Type}
    (source : region_aware source_t) (sink : region_aware sink_t)
    (h : region_store) : outcome bool :=
  a ← arrow (lock (parent_region_info source) h);
  b ← arrow (lock (parent_region_info sink) h);
  mret (region_id_eq (get_id a) (get_id b)).

(** [class buffer] and [class no_buffer] are only declared; a buffer is
    known by the ticks wired to its [in_switch()] and [in_send()]. *)
Inductive buffer_interface : Type :=
  | buffer (in_switch in_send : tick)
  | no_buffer.

(** [construct_buffer]; its [return result;] names no variable in
    scope and is read as returning [result_buffer]. *)
Definition construct_buffer {source_t sink_t : Type}
    (source : region_aware source_t) (sink : region_aware sink_t)
    (h : region_store) : outcome buffer_interface :=
  same ← same_region source sink h;
  if (same : bool) then
    src_region ← arrow (lock (parent_region_info source) h);
    snk_region ← arrow (lock (parent_region_info sink) h);
    mret (buffer (switch_tick src_region) (work_tick snk_region))
  else
    mret no_buffer.

(** [struct node_aware_connection : base_connection] *)
Record node_aware_connection (base_connection : Type) : Type := {
  connection_base : base_connection;
  already_buffered : bool;
  connection_buffer : buffer_interface;
}.

(** [connect(region_aware<source_t> source, region_aware<sink_t> sink)]:
    a [node_aware_connection] around the buffer [construct_buffer]
    returns; the base connection is the pair of base ports. *)
Definition connect {source_t sink_t : Type}
    (source : region_aware source_t) (sink : region_aware sink_t)
    (h : region_store) : outcome (node_aware_connection (source_t * sink_t)) :=
  b ← construct_buffer source sink h;
  mret {| connection_base := (base source, base sink);
          already_buffered := false;
          connection_buffer := b |}.
End region_aware.
Arguments region_info region_id tick : clear implicits.
Arguments region_aware port_t : clear implicits.
Arguments buffer_interface tick : clear implicits.
Arguments base {port_t} r.
Arguments parent_region_info {port_t} r.
Arguments connection_buffer {tick base_connection} n.
End Region.

(** ** Sample configurations *)

Module Samples.

(** A state source that answers successive pulls with the successive
    values of a list, and throws once the list is used up. *)
Definition replay {T : Type} : ext (list T) T :=
  fun remaining =>
    match remaining with
    | x :: rest => (Ok x, rest)
    | [] => (Throw foreign_exception, [])
    end.

(** A state source that counts the pulls it has answered. *)
Definition counter : ext nat Z :=
  fun s => (Ok (Z.of_nat s), S s).

(** A state source that always answers [v]. *)
Definition constant {W T : Type} (v : T) : ext W T :=
  fun w => (Ok v, w).

(** An event handler that records what it receives. *)
Definition record_event {T : Type} : T -> ext (list T) unit :=
  fun v received => (Ok tt, received ++ [v]).

(** [transform([](int a, int b) { return a + b; })] fed by [counter]. *)
Definition adder : Transform.transform_node nat Z Z Z :=
  Transform.transform (fun a b s => (Ok (a + b)%Z, s)) (Some counter).

(** A state switch over two constant inputs, controlled by key 2. *)
Definition state_switch : StateSwitch.n_ary_switch unit nat :=
  {| StateSwitch.index := Some (constant 2) |}.

Definition state_inputs : gmap nat (state_sink unit Z) :=
  {[ 1 := Some (constant 10%Z); 2 := Some (constant 20%Z) ]}.

(** The same switch with its control on a key no input was created for. *)
Definition stray_switch : StateSwitch.n_ary_switch unit nat :=
  {| StateSwitch.index := Some (constant 3) |}.

(** An event switch with its control held at ["A"] and a recording sink. *)
Definition event_switch : EventSwitch.n_ary_switch (list Z) Z string :=
  {| EventSwitch.index := Some (constant "A"%string);
     EventSwitch.out_port := [record_event] |}.

(** A watch node firing on even values, observing [replay]. *)
Definition even_watch : Watch.watch_node (list Z * list Z) Z unit :=
  Watch.watch (fun s x => (Z.even x, s))
    (Some (fun w => let '(r, rest) := replay (fst w) in (r, (rest, snd w))))
    [fun v w => (Ok tt, (fst w, snd w ++ [v]))].

(** [on_changed<int>()] observing [replay], with no sink on [out]. *)
Definition changed_watch : Watch.watch_node (list Z) Z (option Z) :=
  Watch.on_changed (Some replay) [].

(** Two regions with different ids, and one region that is already gone. *)
Definition region_a : Region.region_info nat string :=
  {| Region.get_id := 0; Region.switch_tick := "a.switch"; Region.work_tick := "a.work" |}.

Definition region_b : Region.region_info nat string :=
  {| Region.get_id := 1; Region.switch_tick := "b.switch"; Region.work_tick := "b.work" |}.

Definition regions : gmap positive (Region.region_info nat string) :=
  {[ 1%positive := region_a; 2%positive := region_b ]}.

Definition out_in_a : Region.region_aware string :=
  {| Region.base := "out"; Region.parent_region_info := 1%positive |}.

Definition in_in_a : Region.region_aware string :=
  {| Region.base := "in"; Region.parent_region_info := 1%positive |}.

Definition in_in_b : Region.region_aware string :=
  {| Region.base := "in"; Region.parent_region_info := 2%positive |}.

Definition in_in_gone : Region.region_aware string :=
  {| Region.base := "in"; Region.parent_region_info := 3%positive |}.

(** The document of a stream holding [{"my_key": 7}], and of one holding
    [{"not_our_key": 1}]. *)
Definition stream_with_key : Settings.json_document :=
  {[ "my_key"%string := 7%Z ]}.

Definition stream_other_key : Settings.json_document :=
  {[ "not_our_key"%string := 1%Z ]}.

(** The document of a stream holding [{"my_key": {"a": 13}}]: a point
    whose field [b] is missing. *)
Definition stream_half_point : Settings.point_document :=
  {[ "my_key"%string := {[ "a"%string := 13%Z ]} ]}.

(** The document of a stream holding [{"my_key": {"a": 13, "b": 21}}]. *)
Definition stream_whole_point : Settings.point_document :=
  {[ "my_key"%string := {[ "a"%string := 13%Z; "b"%string := 21%Z ]} ]}.

Definition my_key : Settings.setting_id := {| Settings.key := "my_key" |}.
End Samples.

(** ** Clients of the nodes *)

Module Clients.

Section event_switch_clients.
Context {W T K : Type} `{Countable K}.

(** One event pushed, key after key, into the input port [in(k)] of every
    key of a list. *)
Fixpoint push_all (sw : EventSwitch.n_ary_switch W T K) (keys : list K) (v : T)
    : M (gmap K (EventSwitch.port_t K)) W (EventSwitch.obs T) unit :=
  match keys with
  | [] => mret tt
  | k :: rest =>
      p ← EventSwitch.in_ sw k;
      EventSwitch.port_receive sw p v;;
      push_all sw rest v
  end.

(** The values a stretch of the switch's trace fired on [out]. *)
Definition fired_out (tr : list (EventSwitch.obs T)) : list T :=
  omap (fun e => match e with EventSwitch.FireOut v => Some v | _ => None end) tr.
End event_switch_clients.

Section watch_clients.
Context {W T PS : Type}.

(** The tick callable invoked [count] times in a row; a tick that throws
    ends the run. *)
Fixpoint tick_times (n : Watch.watch_node W T PS) (count : nat)
    : M PS W (Watch.obs T) unit :=
  match count with
  | O => mret tt
  | S count' => Watch.check_tick n;; tick_times n count'
  end.
End watch_clients.

(** A world of two lists: the values a state source has yet to show, and
    the events a sink has received. *)
Definition observed {T : Type} : ext (list T * list T) T :=
  fun w => let '(r, rest) := Samples.replay w.1 in (r, (rest, w.2)).

Definition received {T : Type} : T -> ext (list T * list T) unit :=
  fun v w => (Ok tt, (w.1, w.2 ++ [v])).

(** [watch(p, T())] for a predicate without state, between [observed] and
    [received]. *)
Definition filter_watch {T : Type} (p : T -> bool)
    : Watch.watch_node (list T * list T) T unit :=
  Watch.watch (fun s x => (p x, s)) (Some observed) [received].

(** [on_changed<T>()] between [observed] and [received]. *)
Definition repeat_watch {T : Type} `{EqDecision T}
    : Watch.watch_node (list T * list T) T (option T) :=
  Watch.on_changed (Some observed) [received].

(** A transform node whose parameter source always throws. *)
Definition starved_adder : Transform.transform_node nat Z Z Z :=
  Transform.transform (fun a b s => (Ok (a + b)%Z, s))
    (Some (fun s => (Throw foreign_exception, S s))).

(** An archive whose reads fail with an exception that is not a
    [cereal::Exception], such as a stream failure. *)
Definition broken_load : string -> Z -> unit -> outcome unit * Z * unit :=
  fun _ value a => (Throw foreign_exception, value, a).

(** An event switch whose control was never connected. *)
Definition uncontrolled_switch : EventSwitch.n_ary_switch (list Z) Z string :=
  {| EventSwitch.index := None;
     EventSwitch.out_port := [Samples.record_event] |}.

(** [setting<data_t, const_setting_backend_facade>(id, initial_value)]
    followed by [operator()()]: the constructor sets [cache] to
    [initial_value] and registers [[this](data_t i) { cache = i; }] with a
    default-constructed backend. *)
Definition const_setting_value {D : Type} (id : Settings.setting_id)
    (initial_value : D) : outcome D :=
  match Settings.const_setting_backend_facade.register_setting id initial_value
          Settings.write_cache (Machine tt initial_value []) with
  | (Ok _, m) => Ok (env m)
  | (Throw e, _) => Throw e
  end.
End Clients.

(** * Properties *)

(** ** Running computations *)

Section monad_facts.
Context {N W E : Type}.

Lemma bind_ok {A B : Type} (c : M N W E A) (f : A -> M N W E B)
    (m m' : machine N W E) (a : A) :
  c m = (Ok a, m') -> (c ≫= f) m = f a m'.
Proof. intros Hc. unfold mbind, M_bind. by rewrite Hc. Qed.

Lemma bind_throw {A B : Type} (c : M N W E A) (f : A -> M N W E B)
    (m m' : machine N W E) (e : exn) :
  c m = (Throw e, m') -> (c ≫= f) m = (Throw e, m').
Proof. intros Hc. unfold mbind, M_bind. by rewrite Hc. Qed.

Lemma sink_get_bound {T : Type} (name : E) (g : ext W T) (n : N) (w : W)
    (tr : list E) :
  sink_get name (Some g) (Machine n w tr)
  = (fst (g w), Machine n (snd (g w)) (tr ++ [name])).
Proof. cbv [sink_get observe external mbind M_bind]. simpl. by destruct (g w). Qed.

Lemma sink_get_unbound {T : Type} (name : E) (n : N) (w : W) (tr : list E) :
  sink_get (T := T) name None (Machine n w tr)
  = (Throw unbound_sink, Machine n w (tr ++ [name])).
Proof. reflexivity. Qed.

Lemma fire_runs {T : Type} (name : T -> E) (port : event_out_port W T)
    (v : T) (n : N) (w : W) (tr : list E) :
  fire name port v (Machine n w tr)
  = (Ok tt, Machine n (deliver port v w) (tr ++ [name v])).
Proof. reflexivity. Qed.
End monad_facts.

(** ** transform_node *)

Section transform_facts.
Context {W T P R : Type}.
Import Transform.

Lemma pulls_app (tr1 tr2 : list (obs T P)) :
  pulls (tr1 ++ tr2) = pulls tr1 + pulls tr2.
Proof. unfold pulls. by rewrite List.filter_app, length_app. Qed.

Lemma op_calls_app (tr1 tr2 : list (obs T P)) :
  op_calls (tr1 ++ tr2) = op_calls tr1 + op_calls tr2.
Proof. unfold op_calls. by rewrite List.filter_app, length_app. Qed.

(** The run of [operator()] once the parameter source has answered. *)
Lemma call_bound (n : transform_node W T P R) (x : T) (g : ext W P) (p : P)
    (w w1 : W) (tr : list (obs T P)) :
  param n = Some g ->
  g w = (Ok p, w1) ->
  call n x (Machine tt w tr)
  = (fst (op n x p w1),
     Machine tt (snd (op n x p w1)) (tr ++ [PullParam; CallOp x p])).
Proof.
  intros Hparam Hg. unfold call. rewrite Hparam.
  erewrite bind_ok; last by rewrite sink_get_bound, Hg.
  cbv [observe external mbind M_bind]. simpl.
  destruct (op n x p w1) as [r w2]. simpl.
  by rewrite <- app_assoc.
Qed.

(** A node over a pure operator [f] returns [f x p]. *)
Lemma transform_pure_value (f : T -> P -> R) (x : T) (g : ext W P) (p : P)
    (w w1 : W) (tr : list (obs T P)) :
  g w = (Ok p, w1) ->
  fst (call (transform (fun a b s => (Ok (f a b), s)) (Some g)) x
         (Machine tt w tr)) = Ok (f x p).
Proof. intros Hg. by erewrite call_bound. Qed.

(** C5: when the bound parameter source delivers [p], evaluating the
    transform node on [x] yields what [op x p] yields, and the evaluation
    adds to the trace one pull of [param] followed by one invocation of
    [op] on [x] and [p], nothing else. *)
Theorem transform_node_call_once (n : transform_node W T P R) (x : T)
    (g : ext W P) (p : P) (w w1 : W) (tr : list (obs T P)) :
  param n = Some g ->
  g w = (Ok p, w1) ->
  let '(r, m') := call n x (Machine tt w tr) in
  r = fst (op n x p w1)
  /\ env m' = snd (op n x p w1)
  /\ trace m' = tr ++ [PullParam; CallOp x p]
  /\ pulls (trace m') = S (pulls tr)
  /\ op_calls (trace m') = S (op_calls tr).
Proof.
  intros Hparam Hg. rewrite (call_bound n x g p w w1 tr Hparam Hg). simpl.
  rewrite pulls_app, op_calls_app.
  change (pulls [PullParam; CallOp x p]) with 1.
  change (op_calls [PullParam; CallOp x p]) with 1.
  repeat split; try reflexivity; lia.
Qed.
End transform_facts.

(** An adder fed by a counter: the fifth pull delivers 4, and 3 + 4 = 7. *)
Lemma transform_node_call_once_witness :
  let '(r, m') := Transform.call Samples.adder 3%Z (Machine tt 4 []) in
  r = Ok 7%Z
  /\ env m' = 5
  /\ trace m' = [Transform.PullParam; Transform.CallOp 3%Z 4%Z]
  /\ Transform.pulls (trace m') = 1
  /\ Transform.op_calls (trace m') = 1.
Proof.
  exact (transform_node_call_once Samples.adder 3%Z Samples.counter 4%Z 4 5 []
           eq_refl eq_refl).
Defined.

(** ** n_ary_switch, state variant *)

Section state_switch_facts.
Context {W T K : Type} `{Countable K}.
Import StateSwitch.

(** C4: once the control sink has delivered key [k], [out().get()] is the
    [get()] of the input port stored under [k], and throws [out_of_range]
    (the spec's UnknownKey), pulling no input, when no port is stored
    under [k]. *)
Theorem state_switch_out_get (sw : n_ary_switch W K) (g : ext W K) (k : K)
    (in_ports : gmap K (state_sink W T)) (w w1 : W) (tr : list (obs K)) :
  index sw = Some g ->
  g w = (Ok k, w1) ->
  out_get sw (Machine in_ports w tr)
  = match in_ports !! k with
    | Some p => sink_get (PullIn k) p (Machine in_ports w1 (tr ++ [PullControl]))
    | None => (Throw out_of_range, Machine in_ports w1 (tr ++ [PullControl]))
    end.
Proof.
  intros Hindex Hg. unfold out_get. rewrite Hindex.
  erewrite bind_ok; last by rewrite sink_get_bound, Hg.
  cbv [mbind M_bind get_node]. simpl.
  unfold port_t. by destruct (in_ports !! k).
Qed.
End state_switch_facts.

(** With the control at 2 the switch answers with input 2; with the control
    at 3, a key without input, it throws. *)
Lemma state_switch_out_get_witness :
  StateSwitch.out_get Samples.state_switch (Machine Samples.state_inputs tt [])
  = (Ok 20%Z,
     Machine Samples.state_inputs tt [StateSwitch.PullControl; StateSwitch.PullIn 2])
  /\ StateSwitch.out_get Samples.stray_switch (Machine Samples.state_inputs tt [])
     = (Throw out_of_range,
        Machine Samples.state_inputs tt [StateSwitch.PullControl]).
Proof.
  split.
  - exact (state_switch_out_get Samples.state_switch (Samples.constant 2) 2
             Samples.state_inputs tt tt [] eq_refl eq_refl).
  - exact (state_switch_out_get Samples.stray_switch (Samples.constant 3) 3
             Samples.state_inputs tt tt [] eq_refl eq_refl).
Defined.

(** ** n_ary_switch, event variant *)

Section event_switch_facts.
Context {W T K : Type} `{Countable K}.
Import EventSwitch.

Implicit Types (sw : n_ary_switch W T K) (in_ports : gmap K (port_t K)).
Implicit Types (m : machine (gmap K (port_t K)) W (obs T)).

Lemma ports_own_keys_empty : ports_own_keys (K := K) ∅.
Proof. intros k p Hk. by rewrite lookup_empty in Hk. Qed.

Lemma after_in_lookup in_ports k :
  ports_own_keys in_ports ->
  after_in in_ports k !! k = Some {| captured_port := k |}.
Proof.
  intros Hown. unfold after_in.
  destruct (in_ports !! k) as [[k']|] eqn:Hk.
  - rewrite Hk. f_equal. f_equal. exact (Hown k _ Hk).
  - apply lookup_insert_eq.
Qed.

Lemma after_in_keeps in_ports k k' p :
  in_ports !! k' = Some p -> after_in in_ports k !! k' = Some p.
Proof.
  intros Hk'. unfold after_in. destruct (in_ports !! k) eqn:Hk; [done|].
  rewrite lookup_insert_ne; [done|]. intros ->. congruence.
Qed.

Lemma after_in_own_keys in_ports k :
  ports_own_keys in_ports -> ports_own_keys (after_in in_ports k).
Proof.
  intros Hown k' p. unfold after_in. destruct (in_ports !! k) eqn:Hk.
  - apply Hown.
  - destruct (decide (k = k')) as [->|Hne].
    + rewrite lookup_insert_eq. by intros [= <-].
    + rewrite lookup_insert_ne by done. apply Hown.
Qed.

(** [in] always returns, with the port stored under the key. *)
Lemma in_run sw k in_ports (w : W) (tr : list (obs T)) :
  ports_own_keys in_ports ->
  in_ sw k (Machine in_ports w tr)
  = (Ok {| captured_port := k |}, Machine (after_in in_ports k) w tr).
Proof.
  intros Hown. pose proof (after_in_lookup in_ports k Hown) as Hlook.
  unfold in_, after_in in *. cbv [mbind M_bind get_node put_node assert].
  simpl.
  destruct (in_ports !! k) as [p|] eqn:Hk; simpl.
  - rewrite bool_decide_eq_false_2; last first.
    { intros ->. by rewrite lookup_empty in Hk. }
    simpl. by rewrite Hlook.
  - rewrite bool_decide_eq_false_2; last apply insert_non_empty.
    simpl. by rewrite Hlook.
Qed.

(** Past its two assertions, [forward_call] is the guarded [fire]. *)
Lemma forward_call_stored sw (v : T) (k : K) m :
  is_Some (node m !! k) ->
  forward_call sw v k m
  = (k' ← sink_get PullControl (index sw);
     if bool_decide (k = k') then fire FireOut (out_port sw) v else mret tt) m.
Proof.
  intros Hk. unfold forward_call. cbv [mbind M_bind get_node assert].
  rewrite bool_decide_eq_false_2; last first.
  { intros Hempty. rewrite Hempty, lookup_empty in Hk. by destruct Hk. }
  simpl. by rewrite bool_decide_eq_true_2.
Qed.

(** No member function removes an input port. *)
Lemma forward_call_node sw (v : T) (k : K) m :
  node (forward_call sw v k m).2 = node m.
Proof.
  unfold forward_call. cbv [mbind M_bind get_node assert throw mret M_ret].
  destruct (negb _); [|done]. destruct (bool_decide (is_Some _)); [|done].
  destruct m as [n w tr]. destruct (index sw) as [g|]; [|done].
  rewrite sink_get_bound. destruct (g w) as [[k'|e] w1]; [|done]. simpl.
  by destruct (bool_decide (k = k')).
Qed.

Lemma in_node_keeps sw k m k' p :
  node m !! k' = Some p -> node (in_ sw k m).2 !! k' = Some p.
Proof.
  intros Hk'. unfold in_. cbv [mbind M_bind get_node put_node assert throw mret M_ret].
  simpl.
  destruct (bool_decide (node m !! k = None)) eqn:Hd; simpl.
  - apply bool_decide_eq_true_1 in Hd.
    assert (<[k:={| captured_port := k |}]> (node m) !! k' = Some p) as Hins.
    { rewrite lookup_insert_ne; [done|]. intros ->. congruence. }
    destruct (negb _); [|done].
    by destruct (<[k:=_]> (node m) !! k).
  - destruct (negb _); [|done]. by destruct (node m !! k).
Qed.

Lemma step_keeps sw m m' k p :
  step sw m m' -> node m !! k = Some p -> node m' !! k = Some p.
Proof.
  intros Hstep Hk. destruct Hstep as [k0 m m' r Hin | p0 v m m' r Hrecv | m w'].
  - pose proof (in_node_keeps sw k0 m k p Hk) as Hkeep. by rewrite Hin in Hkeep.
  - pose proof (forward_call_node sw v (captured_port p0) m) as Hnode.
    unfold port_receive in Hrecv. rewrite Hrecv in Hnode. simpl in Hnode.
    by rewrite Hnode.
  - done.
Qed.

Lemma steps_keep sw m m' k p :
  rtc (step sw) m m' -> node m !! k = Some p -> node m' !! k = Some p.
Proof. induction 1; eauto using step_keeps. Qed.

(** [ports_own_keys] holds of the fresh switch and is kept by every step. *)
Lemma step_own_keys sw m m' :
  step sw m m' -> ports_own_keys (node m) -> ports_own_keys (node m').
Proof.
  intros Hstep Hown.
  destruct Hstep as [k0 m m' r Hin | p0 v m m' r Hrecv | m w'].
  - destruct m as [n w tr]. rewrite (in_run sw k0 n w tr Hown) in Hin.
    injection Hin as _ <-. by apply after_in_own_keys.
  - pose proof (forward_call_node sw v (captured_port p0) m) as Hnode.
    unfold port_receive in Hrecv. rewrite Hrecv in Hnode. simpl in Hnode.
    by rewrite Hnode.
  - done.
Qed.

Lemma steps_own_keys sw m m' :
  rtc (step sw) m m' -> ports_own_keys (node m) -> ports_own_keys (node m').
Proof. induction 1; eauto using step_own_keys. Qed.

(** The guarded [fire], run to its end. *)
Lemma guarded_fire_run sw (g : ext W K) (k kj : K) (v : T) m (w1 : W) :
  index sw = Some g ->
  g (env m) = (Ok k, w1) ->
  (k' ← sink_get PullControl (index sw);
   if bool_decide (kj = k') then fire FireOut (out_port sw) v else mret tt) m
  = (Ok tt,
     Machine (node m)
       (if bool_decide (kj = k) then deliver (out_port sw) v w1 else w1)
       (trace m ++ PullControl
          :: (if bool_decide (kj = k) then [FireOut v] else []))).
Proof.
  intros Hindex Hg. destruct m as [n w tr]. simpl in *. rewrite Hindex.
  erewrite bind_ok; last by rewrite sink_get_bound, Hg.
  simpl. destruct (bool_decide (kj = k)).
  - rewrite fire_runs. by rewrite <- app_assoc.
  - reflexivity.
Qed.

(** C3: an event [v] pushed into the port that [in(kj)] returned, at any
    later moment at which the control source delivers [k], ends in exactly
    one event [v] fired on [out] when [kj = k], and in none otherwise; in
    both cases the call returns normally. *)
Theorem event_switch_forwards_iff sw (g : ext W K) (k kj : K) (v : T)
    (p : port_t K) m0 m1 m (w1 : W) :
  ports_own_keys (node m0) ->
  in_ sw kj m0 = (Ok p, m1) ->
  rtc (step sw) m1 m ->
  index sw = Some g ->
  g (env m) = (Ok k, w1) ->
  port_receive sw p v m
  = (Ok tt,
     Machine (node m)
       (if bool_decide (kj = k) then deliver (out_port sw) v w1 else w1)
       (trace m ++ PullControl
          :: (if bool_decide (kj = k) then [FireOut v] else []))).
Proof.
  intros Hown Hin Hsteps Hindex Hg. destruct m0 as [n0 w0 tr0].
  rewrite (in_run sw kj n0 w0 tr0 Hown) in Hin.
  injection Hin as <- <-.
  pose proof (steps_keep sw _ m kj _ Hsteps (after_in_lookup n0 kj Hown)) as Hk.
  unfold port_receive. simpl.
  rewrite forward_call_stored by (by rewrite Hk).
  by apply (guarded_fire_run sw g).
Qed.

(** C10: [in(k)] returns the port stored under [k], inserting it when the
    key was absent, so the map is not empty afterwards; and whatever the
    clients do next, an event pushed into that port finds the map non-empty
    and the key present, so [forward_call] gets past both assertions. *)
Theorem event_switch_assertions_hold sw (k : K) in_ports (w : W)
    (tr : list (obs T)) :
  ports_own_keys in_ports ->
  in_ sw k (Machine in_ports w tr)
  = (Ok {| captured_port := k |}, Machine (after_in in_ports k) w tr)
  /\ after_in in_ports k !! k = Some {| captured_port := k |}
  /\ after_in in_ports k ≠ ∅
  /\ forall m (v : T),
       rtc (step sw) (Machine (after_in in_ports k) w tr) m ->
       node m ≠ ∅
       /\ is_Some (node m !! k)
       /\ port_receive sw {| captured_port := k |} v m
          = (k' ← sink_get PullControl (index sw);
             if bool_decide (k = k') then fire FireOut (out_port sw) v
             else mret tt) m.
Proof.
  intros Hown. pose proof (after_in_lookup in_ports k Hown) as Hlook.
  split; [by apply in_run|]. split; [done|]. split.
  { intros Hempty. by rewrite Hempty, lookup_empty in Hlook. }
  intros m v Hsteps.
  pose proof (steps_keep sw _ m k _ Hsteps Hlook) as Hk.
  split; [|split].
  - intros Hempty. by rewrite Hempty, lookup_empty in Hk.
  - by rewrite Hk.
  - unfold port_receive. simpl. apply forward_call_stored. by rewrite Hk.
Qed.
End event_switch_facts.

(** The spec's scenario: control held at "A"; 42 pushed into input "B" is
    dropped, 7 pushed into input "A" comes out. *)
Lemma event_switch_forwards_iff_witness :
  EventSwitch.port_receive Samples.event_switch
    {| EventSwitch.captured_port := "B"%string |} 42%Z
    (Machine (EventSwitch.after_in ∅ "B"%string) [] [])
  = (Ok tt, Machine (EventSwitch.after_in ∅ "B"%string) []
              [EventSwitch.PullControl])
  /\ EventSwitch.port_receive Samples.event_switch
       {| EventSwitch.captured_port := "A"%string |} 7%Z
       (Machine (EventSwitch.after_in ∅ "A"%string) [] [])
     = (Ok tt, Machine (EventSwitch.after_in ∅ "A"%string) [7%Z]
                 [EventSwitch.PullControl; EventSwitch.FireOut 7%Z]).
Proof.
  split.
  - exact (event_switch_forwards_iff Samples.event_switch
             (Samples.constant "A"%string) "A"%string "B"%string 42%Z _
             (Machine ∅ [] []) _ _ []
             ports_own_keys_empty eq_refl (rtc_refl _ _) eq_refl eq_refl).
  - exact (event_switch_forwards_iff Samples.event_switch
             (Samples.constant "A"%string) "A"%string "A"%string 7%Z _
             (Machine ∅ [] []) _ _ []
             ports_own_keys_empty eq_refl (rtc_refl _ _) eq_refl eq_refl).
Defined.

(** On a fresh switch, [in("B")] stores the port and later events pass
    the assertions. *)
Lemma event_switch_assertions_hold_witness :
  EventSwitch.in_ Samples.event_switch "B"%string (Machine ∅ [] [])
  = (Ok {| EventSwitch.captured_port := "B"%string |},
     Machine (EventSwitch.after_in ∅ "B"%string) [] [])
  /\ EventSwitch.after_in ∅ "B"%string !! "B"%string
     = Some {| EventSwitch.captured_port := "B"%string |}
  /\ EventSwitch.after_in (K := string) ∅ "B"%string ≠ ∅.
Proof.
  pose proof (event_switch_assertions_hold Samples.event_switch "B"%string ∅
                [] [] ports_own_keys_empty) as (Hin & Hlook & Hne & _).
  exact (conj Hin (conj Hlook Hne)).
Defined.

(** ** watch_node and on_changed *)

Section watch_facts.
Context {W T PS : Type}.
Import Watch.

(** One invocation of the tick callable, run to its end. *)
Lemma check_tick_run (n : watch_node W T PS) (g : ext W T) (x : T)
    (s : PS) (w w1 : W) (tr : list (obs T)) :
  in_port n = Some g ->
  g w = (Ok x, w1) ->
  check_tick n (Machine s w tr)
  = (Ok tt,
     Machine (pred n s x).2
       (if (pred n s x).1 then deliver (out_port n) x w1 else w1)
       (tr ++ [ReadIn; EvalPred x (pred n s x).1]
           ++ (if (pred n s x).1 then [FireOut x] else []))).
Proof.
  intros Hin Hg. unfold check_tick. rewrite Hin.
  erewrite bind_ok; last by rewrite sink_get_bound, Hg.
  unfold call_pred. cbv [mbind M_bind get_node put_node observe mret M_ret].
  simpl. destruct (pred n s x) as [[|] s']; simpl.
  - rewrite fire_runs. by rewrite <- !app_assoc.
  - by rewrite <- !app_assoc.
Qed.

(** C8: once the source bound to [in] has delivered [x], one invocation of
    the tick callable returns normally after reading [in] once and
    evaluating the predicate once, on [x]; it fires [out] once, with [x],
    when the predicate returned true, and not at all when it returned
    false. *)
Theorem check_tick_once (n : watch_node W T PS) (g : ext W T) (x : T)
    (s : PS) (w w1 : W) (tr : list (obs T)) :
  in_port n = Some g ->
  g w = (Ok x, w1) ->
  let b := (pred n s x).1 in
  let '(r, m') := check_tick n (Machine s w tr) in
  r = Ok tt
  /\ node m' = (pred n s x).2
  /\ env m' = (if b then deliver (out_port n) x w1 else w1)
  /\ reads (trace m') = S (reads tr)
  /\ evaluations (trace m') = evaluations tr ++ [(x, b)]
  /\ fired (trace m') = fired tr ++ (if b then [x] else []).
Proof.
  intros Hin Hg b. rewrite (check_tick_run n g x s w w1 tr Hin Hg). simpl.
  fold b. clearbody b. unfold reads, evaluations, fired.
  rewrite List.filter_app, length_app, !omap_app.
  destruct b; simpl; repeat split; lia.
Qed.
End watch_facts.

(** A watch on even values: 4 is read, tested and fired; 5 is read and
    tested only. *)
Lemma check_tick_once_witness :
  (let '(r, m') :=
     Watch.check_tick Samples.even_watch (Machine tt ([4%Z], []) []) in
   r = Ok tt /\ node m' = tt /\ env m' = ([], [4%Z])
   /\ Watch.reads (trace m') = 1
   /\ Watch.evaluations (trace m') = [(4%Z, true)]
   /\ Watch.fired (trace m') = [4%Z])
  /\ (let '(r, m') :=
        Watch.check_tick Samples.even_watch (Machine tt ([5%Z], []) []) in
      r = Ok tt /\ node m' = tt /\ env m' = ([], [])
      /\ Watch.reads (trace m') = 1
      /\ Watch.evaluations (trace m') = [(5%Z, false)]
      /\ Watch.fired (trace m') = []).
Proof.
  split.
  - exact (check_tick_once Samples.even_watch _ 4%Z tt ([4%Z], []) ([], []) []
             eq_refl eq_refl).
  - exact (check_tick_once Samples.even_watch _ 5%Z tt ([5%Z], []) ([], []) []
             eq_refl eq_refl).
Defined.

Section on_changed_facts.
Context {W T : Type} `{EqDecision T}.
Import Watch.

(** The predicate of [on_changed] answers true exactly when the value
    equals the one seen last, and false when nothing was seen yet. *)
Lemma on_changed_pred_true (last : option T) (x : T) :
  (on_changed_pred last x).1 = true <-> last = Some x.
Proof.
  unfold on_changed_pred. simpl. destruct last as [l|]; [|done].
  rewrite bool_decide_eq_true. split; congruence.
Qed.

Lemma on_changed_pred_state (last : option T) (x : T) :
  (on_changed_pred last x).2 = Some x.
Proof. reflexivity. Qed.

(** A tick of the [on_changed] node fires exactly when the value read
    equals the previous one. *)
Lemma on_changed_tick_fires (i : ext W T) (o : event_out_port W T)
    (last : option T) (x : T) (w w1 : W) :
  i w = (Ok x, w1) ->
  fired (trace (check_tick (on_changed (Some i) o) (Machine last w [])).2)
  = if bool_decide (last = Some x) then [x] else [].
Proof.
  intros Hi.
  rewrite (check_tick_run (on_changed (Some i) o) i x last w w1 [] eq_refl Hi).
  simpl. destruct last as [l|]; simpl.
  - destruct (decide (l = x)) as [->|Hne].
    + rewrite (bool_decide_eq_true_2 (x = x)) by done.
      by rewrite (bool_decide_eq_true_2 (Some x = Some x)).
    + rewrite (bool_decide_eq_false_2 (l = x)) by done.
      rewrite (bool_decide_eq_false_2 (Some l = Some x)); [done|congruence].
  - reflexivity.
Qed.
End on_changed_facts.

(** C2, on the code: over the observed sequence 5,5,5,6,6,7 the
    [on_changed] node fires on ticks 2 and 3 (value 5) and on tick 5
    (value 6), the ticks whose value repeats the previous one; it fires
    neither on tick 4 nor on tick 6, where the value changes, nor on the
    first tick. *)
Theorem on_changed_fires_on_repeats :
  Watch.run_ticks Samples.changed_watch 6 Watch.on_changed_init
    [5; 5; 5; 6; 6; 7]%Z
  = [[]; [5]; [5]; []; [6]; []]%Z.
Proof. vm_compute. reflexivity. Qed.

(** ** Setting backends *)

Section settings_facts.
Context {W D A : Type}.
Import Settings.

Implicit Types (load : string -> D -> A -> outcome unit * D * A).
Implicit Types (setter : setter_t W D) (id : setting_id).

Lemma call_setter_run {N : Type} setter (v : D) (n : N) (w : W)
    (tr : list (obs D)) :
  call_setter setter v (Machine n w tr)
  = ((setter v w).1, Machine n (setter v w).2 (tr ++ [CallSetter v])).
Proof.
  unfold call_setter. cbv [observe external mbind M_bind]. simpl.
  by destruct (setter v w).
Qed.

Lemma setter_calls_app (tr1 tr2 : list (obs D)) :
  setter_calls (tr1 ++ tr2) = setter_calls tr1 ++ setter_calls tr2.
Proof. unfold setter_calls. apply fmap_app. Qed.

(** The json-file backend by the three ways the archive can answer; [v] is
    what the archive left in [value]. *)
Lemma json_register_read load id (initial v : D) setter (a a' : A) (w : W)
    (tr : list (obs D)) :
  load (key id) initial a = (Ok tt, v, a') ->
  json_file_setting_facade.register_setting load id initial setter
    (Machine a w tr)
  = ((setter v w).1, Machine a' (setter v w).2 (tr ++ [CallSetter v])).
Proof.
  intros Hload. unfold json_file_setting_facade.register_setting, with_local.
  unfold try_catch, json_file_setting_facade.archive_nvp.
  cbv [mbind M_bind get_node put_node mret M_ret throw]. simpl.
  rewrite Hload. simpl. rewrite call_setter_run. reflexivity.
Qed.

Lemma json_register_cereal load id (initial v : D) setter (a a' : A) (w : W)
    (tr : list (obs D)) :
  load (key id) initial a = (Throw cereal_Exception, v, a') ->
  json_file_setting_facade.register_setting load id initial setter
    (Machine a w tr)
  = ((setter v w).1, Machine a' (setter v w).2 (tr ++ [CallSetter v])).
Proof.
  intros Hload. unfold json_file_setting_facade.register_setting, with_local.
  unfold try_catch, json_file_setting_facade.archive_nvp.
  cbv [mbind M_bind get_node put_node mret M_ret throw]. simpl.
  rewrite Hload. simpl. rewrite call_setter_run. reflexivity.
Qed.

Lemma json_register_foreign load id (initial v : D) setter (a a' : A) (w : W)
    (tr : list (obs D)) (e : exn) :
  load (key id) initial a = (Throw e, v, a') ->
  e ≠ cereal_Exception ->
  json_file_setting_facade.register_setting load id initial setter
    (Machine a w tr)
  = (Throw e, Machine a' w tr).
Proof.
  intros Hload He. unfold json_file_setting_facade.register_setting, with_local.
  unfold try_catch, json_file_setting_facade.archive_nvp.
  cbv [mbind M_bind get_node put_node mret M_ret throw]. simpl.
  rewrite Hload. simpl. unfold json_file_setting_facade.is_cereal_Exception.
  by rewrite bool_decide_eq_false_2.
Qed.
End settings_facts.

(** C6, on the code: a setting of type [point] registered with initial
    value (1, 2) on a stream that stores the key with field [a] = 13 and
    without field [b].  Reading the key fails, silently; the setter is
    then called with (13, 2), the half-written variable, not with the
    initial (1, 2): the handler of the exception does not put [initial_v]
    back. *)
Theorem json_register_setting_half_read :
  Settings.json_file_setting_facade.register_setting Settings.point_load
    Samples.my_key (1, 2)%Z Settings.write_cache
    (Machine Samples.stream_half_point (1, 2)%Z [])
  = (Ok tt,
     Machine Samples.stream_half_point (13, 2)%Z
       [Settings.CallSetter (13, 2)%Z]).
Proof.
  apply (json_register_cereal Settings.point_load Samples.my_key (1, 2)%Z
           (13, 2)%Z Settings.write_cache Samples.stream_half_point
           Samples.stream_half_point (1, 2)%Z []).
  vm_compute. reflexivity.
Qed.

(** C7, on the code: on the same stream the json-file backend returns
    after one call of the setter, and the value it passes, (13, 2), is not
    the initial value (1, 2), nor was any value read from the store: the
    read ended in a [cereal::Exception], the store has no field [b], and
    the 2 is the initial one. *)
Theorem register_setting_passes_mixed_value :
  let '(r, m') :=
    Settings.json_file_setting_facade.register_setting Settings.point_load
      Samples.my_key (1, 2)%Z Settings.write_cache
      (Machine Samples.stream_half_point (0, 0)%Z []) in
  r = Ok tt
  /\ Settings.setter_calls (trace m') = [(13, 2)%Z]
  /\ (13, 2)%Z ≠ (1, 2)%Z
  /\ (Settings.point_load "my_key" (1, 2)%Z Samples.stream_half_point).1.1
     = Throw cereal_Exception
  /\ Samples.stream_half_point !! "my_key"%string
     = Some {[ "a"%string := 13%Z ]}.
Proof.
  rewrite (json_register_cereal Settings.point_load Samples.my_key (1, 2)%Z
             (13, 2)%Z Settings.write_cache Samples.stream_half_point
             Samples.stream_half_point (0, 0)%Z []);
    [|vm_compute; reflexivity].
  repeat split; try reflexivity. discriminate.
Qed.

(** The spec's fallback scenario: the stream holds another key, and the
    setting keeps its initial value 42; with the key present it takes the
    stored 7. *)
Lemma json_setting_value_scenarios :
  Settings.json_setting_value Settings.json_load Samples.my_key
    Samples.stream_other_key 42%Z = Ok 42%Z
  /\ Settings.json_setting_value Settings.json_load Samples.my_key
       Samples.stream_with_key 42%Z = Ok 7%Z.
Proof. split; vm_compute; reflexivity. Qed.

(** ** Region-aware ports *)

Section region_facts.
Context {region_id tick source_t sink_t : Type}.
Variable region_id_eq : region_id -> region_id -> bool.
Import Region.

Implicit Types (source : region_aware source_t) (sink : region_aware sink_t).
Implicit Types (h : gmap positive (region_info region_id tick)).

Lemma same_region_alive source sink h (r1 r2 : region_info region_id tick) :
  h !! parent_region_info source = Some r1 ->
  h !! parent_region_info sink = Some r2 ->
  same_region region_id_eq source sink h
  = Ok (region_id_eq (get_id r1) (get_id r2)).
Proof. intros H1 H2. unfold same_region, lock. by rewrite H1, H2. Qed.

Lemma same_region_gone source sink h :
  h !! parent_region_info source = None
  \/ h !! parent_region_info sink = None ->
  same_region region_id_eq source sink h = Throw null_dereference.
Proof.
  intros Hgone. unfold same_region, lock.
  destruct (h !! parent_region_info source) as [r1|]; [|done].
  destruct Hgone as [?|Hsink]; [done|]. by rewrite Hsink.
Qed.

(** [construct_buffer] on two live regions: a buffer between the source
    region's switch tick and the sink region's work tick when the ids
    compare equal, [no_buffer] when they do not. *)
Lemma construct_buffer_alive source sink h (r1 r2 : region_info region_id tick) :
  h !! parent_region_info source = Some r1 ->
  h !! parent_region_info sink = Some r2 ->
  construct_buffer region_id_eq source sink h
  = Ok (if region_id_eq (get_id r1) (get_id r2)
        then buffer (switch_tick r1) (work_tick r2)
        else no_buffer).
Proof.
  intros H1 H2. unfold construct_buffer.
  rewrite (same_region_alive source sink h r1 r2 H1 H2). simpl.
  destruct (region_id_eq _ _); [|done]. unfold lock. by rewrite H1, H2.
Qed.

(** C9: while both parent regions are alive, [same_region] returns the
    result of comparing their ids, and [construct_buffer] returns as well:
    no null pointer is dereferenced.  Once either region is gone, [lock()]
    yields an empty pointer and both functions dereference it. *)
Theorem same_region_needs_live_regions source sink h :
  (forall r1 r2 : region_info region_id tick,
     h !! parent_region_info source = Some r1 ->
     h !! parent_region_info sink = Some r2 ->
     same_region region_id_eq source sink h
     = Ok (region_id_eq (get_id r1) (get_id r2))
     /\ returns (construct_buffer region_id_eq source sink h) = true)
  /\ (h !! parent_region_info source = None
      \/ h !! parent_region_info sink = None ->
      same_region region_id_eq source sink h = Throw null_dereference
      /\ construct_buffer region_id_eq source sink h = Throw null_dereference).
Proof.
  split.
  - intros r1 r2 H1 H2. split; [by apply same_region_alive|].
    by rewrite (construct_buffer_alive source sink h r1 r2 H1 H2).
  - intros Hgone. pose proof (same_region_gone source sink h Hgone) as Hsame.
    split; [done|]. unfold construct_buffer. by rewrite Hsame.
Qed.
End region_facts.

(** Ports of two live regions compare by id; a port whose region is gone
    makes [same_region] dereference an empty pointer. *)
Lemma same_region_needs_live_regions_witness :
  (Region.same_region Nat.eqb Samples.out_in_a Samples.in_in_b Samples.regions
   = Ok false
   /\ returns (Region.construct_buffer Nat.eqb Samples.out_in_a Samples.in_in_b
                 Samples.regions) = true)
  /\ (Region.same_region Nat.eqb Samples.out_in_a Samples.in_in_gone
        Samples.regions = Throw null_dereference
      /\ Region.construct_buffer Nat.eqb Samples.out_in_a Samples.in_in_gone
           Samples.regions = Throw null_dereference).
Proof.
  split.
  - exact (proj1 (same_region_needs_live_regions Nat.eqb Samples.out_in_a
                    Samples.in_in_b Samples.regions)
             Samples.region_a Samples.region_b eq_refl eq_refl).
  - exact (proj2 (same_region_needs_live_regions Nat.eqb Samples.out_in_a
                    Samples.in_in_gone Samples.regions)
             (or_intror eq_refl)).
Defined.

(** C1, on the code: for a source and a sink of one and the same live
    region, [construct_buffer] (and so [connect]) installs a real buffer,
    wired to that region's own ticks; for a source in one region and a sink
    in another it installs [no_buffer]. *)
Theorem construct_buffer_inverted :
  Region.construct_buffer Nat.eqb Samples.out_in_a Samples.in_in_a
    Samples.regions
  = Ok (Region.buffer "a.switch"%string "a.work"%string)
  /\ Region.construct_buffer Nat.eqb Samples.out_in_a Samples.in_in_b
       Samples.regions
     = Ok Region.no_buffer
  /\ Region.connection_buffer
       <$> Region.connect Nat.eqb Samples.out_in_a Samples.in_in_a
             Samples.regions
     = Ok (Region.buffer "a.switch"%string "a.work"%string)
  /\ Region.connection_buffer
       <$> Region.connect Nat.eqb Samples.out_in_a Samples.in_in_b
             Samples.regions
     = Ok Region.no_buffer.
Proof. repeat split; vm_compute; reflexivity. Qed.

(** * Further properties of the nodes *)

(** ** n_ary_switch, state variant: [in] and [out] together *)

Section state_switch_more.
Context {W T K : Type} `{Countable K}.
Import StateSwitch.

Implicit Types (sw : n_ary_switch W K) (in_ports : gmap K (state_sink W T)).

(** [in], run to its end. *)
Lemma state_in_run sw (k : K) in_ports (w : W) (tr : list (obs K)) :
  in_ sw k (Machine in_ports w tr)
  = (Ok (default None (in_ports !! k)),
     Machine (match in_ports !! k with
              | Some _ => in_ports
              | None => <[k := None]> in_ports
              end) w tr).
Proof.
  unfold in_. cbv [mbind M_bind get_node put_node mret M_ret]. simpl.
  unfold port_t. by destruct (in_ports !! k).
Qed.

(** X1: [in(k)] of the state switch always returns; it hands out the port
    stored under [k] and leaves the map alone when there is one, and
    stores an unbound port under [k] when there is none; no other key is
    touched, and neither the connected world nor the trace changes. *)
Theorem state_switch_in_stores sw (k : K) in_ports (w : W) (tr : list (obs K)) :
  exists (p : state_sink W T) (after : gmap K (state_sink W T)),
    in_ sw k (Machine in_ports w tr) = (Ok p, Machine after w tr)
    /\ after !! k = Some p
    /\ (forall k', k' ≠ k -> after !! k' = in_ports !! k')
    /\ (forall q, in_ports !! k = Some q -> p = q /\ after = in_ports)
    /\ (in_ports !! k = None -> p = None /\ dom after = {[k]} ∪ dom in_ports).
Proof.
  rewrite state_in_run. unfold port_t.
  destruct (in_ports !! k) as [q|] eqn:Hk; simpl.
  - exists q, in_ports. split; [done|]. split; [done|]. split; [done|].
    split; [|done]. by intros q' [= <-].
  - exists None, (<[k := None]> in_ports). split; [done|].
    split; [apply lookup_insert_eq|]. split.
    { intros k' Hne. by rewrite lookup_insert_ne. }
    split; [done|]. intros _. split; [done|]. apply dom_insert_L.
Qed.

(** X2: on a key no input was ever asked for, [out().get()] throws
    [out_of_range]; once [in(k)] has been called, and nothing connected to
    the port, the same [get()] finds the key and fails in the port
    instead, with the unbound-sink error. *)
Theorem state_switch_fresh_key_unbound sw (g : ext W K) (k : K) in_ports
    (w w1 : W) (tr : list (obs K)) :
  in_ports !! k = None ->
  index sw = Some g ->
  g w = (Ok k, w1) ->
  out_get (T := T) sw (Machine in_ports w tr)
  = (Throw out_of_range, Machine in_ports w1 (tr ++ [PullControl]))
  /\ (in_ sw k;; out_get sw) (Machine in_ports w tr)
     = (Throw unbound_sink,
        Machine (<[k := None]> in_ports) w1 (tr ++ [PullControl; PullIn k])).
Proof.
  intros Hk Hindex Hg. split.
  - unfold out_get. rewrite Hindex.
    erewrite bind_ok; last by rewrite sink_get_bound, Hg.
    cbv [mbind M_bind get_node]. simpl. unfold port_t. by rewrite Hk.
  - erewrite bind_ok; last apply state_in_run.
    unfold port_t. rewrite Hk. unfold out_get. rewrite Hindex.
    erewrite bind_ok; last by rewrite sink_get_bound, Hg.
    cbv [mbind M_bind get_node]. simpl. unfold port_t.
    rewrite lookup_insert_eq. rewrite sink_get_unbound.
    by rewrite <- app_assoc.
Qed.

(** X3: whatever the control and the inputs do, [out().get()] never
    changes the map of inputs, pulls the control once, and pulls at most
    one input: one that is stored in the map. *)
Theorem state_switch_out_get_selects sw
    (m : machine (gmap K (state_sink W T)) W (obs K)) :
  node (out_get sw m).2 = node m
  /\ (trace (out_get sw m).2 = trace m ++ [PullControl]
      \/ exists k, is_Some (node m !! k)
                   /\ trace (out_get sw m).2 = trace m ++ [PullControl; PullIn k]).
Proof.
  destruct m as [in_ports w tr]. unfold out_get.
  destruct (index sw) as [g|]; [|by split; [|left]].
  cbv [mbind M_bind]. rewrite sink_get_bound.
  destruct (g w) as [[k|e] w1]; simpl; [|by split; [|left]].
  unfold port_t. destruct (in_ports !! k) as [[h|]|] eqn:Hk; simpl.
  - rewrite sink_get_bound. simpl. split; [done|]. right. exists k.
    rewrite Hk. split; [by eexists|]. by rewrite <- app_assoc.
  - split; [done|]. right. exists k.
    rewrite Hk. split; [by eexists|]. by rewrite <- app_assoc.
  - split; [done|]. by left.
Qed.
End state_switch_more.

(** The sample switch, asked for the input of key 3 and then read with
    the control at 3. *)
Lemma state_switch_fresh_key_unbound_witness :
  StateSwitch.out_get Samples.stray_switch (Machine Samples.state_inputs tt [])
  = (Throw out_of_range,
     Machine Samples.state_inputs tt [StateSwitch.PullControl])
  /\ (StateSwitch.in_ Samples.stray_switch 3;;
      StateSwitch.out_get Samples.stray_switch)
       (Machine Samples.state_inputs tt [])
     = (Throw unbound_sink,
        Machine (<[3 := None]> Samples.state_inputs) tt
          [StateSwitch.PullControl; StateSwitch.PullIn 3]).
Proof.
  exact (state_switch_fresh_key_unbound Samples.stray_switch
           (Samples.constant 3) 3 Samples.state_inputs tt tt []
           eq_refl eq_refl eq_refl).
Defined.

(** ** n_ary_switch, event variant: several inputs, failing control *)

Section event_switch_more.
Context {W T K : Type} `{Countable K}.
Import EventSwitch Clients.

Implicit Types (sw : n_ary_switch W T K) (in_ports : gmap K (port_t K)).

Lemma fired_out_app (tr1 tr2 : list (obs T)) :
  fired_out (tr1 ++ tr2) = fired_out tr1 ++ fired_out tr2.
Proof. apply omap_app. Qed.

(** X4: asking twice for the input of one key yields the same port both
    times and leaves the map as the first call left it; the call adds the
    key to the keys of the map, and every port stored before stays
    stored. *)
Theorem event_switch_in_idempotent sw (k : K) in_ports (w : W)
    (tr : list (obs T)) :
  ports_own_keys in_ports ->
  (p1 ← in_ sw k; p2 ← in_ sw k; mret (p1, p2)) (Machine in_ports w tr)
  = (Ok ({| captured_port := k |}, {| captured_port := k |}),
     Machine (after_in in_ports k) w tr)
  /\ dom (after_in in_ports k) = {[k]} ∪ dom in_ports
  /\ (forall k' p, in_ports !! k' = Some p -> after_in in_ports k !! k' = Some p).
Proof.
  intros Hown. split; [|split].
  - erewrite bind_ok; last by apply in_run.
    erewrite bind_ok; last by apply in_run, after_in_own_keys.
    cbv [mret M_ret]. do 2 f_equal.
    unfold after_in at 1. by rewrite (after_in_lookup in_ports k Hown).
  - unfold after_in. destruct (in_ports !! k) as [p|] eqn:Hk.
    + symmetry. apply subseteq_union_1_L, singleton_subseteq_l.
      by apply elem_of_dom_2 in Hk.
    + apply dom_insert_L.
  - intros k' p. apply after_in_keeps.
Qed.

Lemma event_switch_dom in_ports (k : K) :
  dom (after_in in_ports k) = {[k]} ∪ dom in_ports
  /\ forall k' p, in_ports !! k' = Some p -> after_in in_ports k !! k' = Some p.
Proof.
  split.
  - unfold after_in. destruct (in_ports !! k) as [p|] eqn:Hk.
    + symmetry. apply subseteq_union_1_L, singleton_subseteq_l.
      by apply elem_of_dom_2 in Hk.
    + apply dom_insert_L.
  - intros k' p. apply after_in_keeps.
Qed.

(** One event pushed into the port of one key, under a steady control. *)
Lemma push_one_run sw (g : ext W K) (k kj : K) (v : T) in_ports (w : W)
    (tr : list (obs T)) :
  ports_own_keys in_ports ->
  index sw = Some g ->
  (forall w', g w' = (Ok k, w')) ->
  (p ← in_ sw kj; port_receive sw p v) (Machine in_ports w tr)
  = (Ok tt,
     Machine (after_in in_ports kj)
       (if bool_decide (kj = k) then deliver (out_port sw) v w else w)
       (tr ++ PullControl
           :: (if bool_decide (kj = k) then [FireOut v] else []))).
Proof.
  intros Hown Hindex Hg.
  erewrite bind_ok; last by apply in_run.
  unfold port_receive. simpl.
  rewrite forward_call_stored; last first.
  { simpl. by rewrite (after_in_lookup in_ports kj Hown). }
  by rewrite (guarded_fire_run sw g k kj v
                (Machine (after_in in_ports kj) w tr) w Hindex (Hg w)).
Qed.

Lemma push_all_run sw (g : ext W K) (k : K) (v : T) (keys : list K) :
  index sw = Some g ->
  (forall w', g w' = (Ok k, w')) ->
  forall in_ports (w : W) (tr : list (obs T)),
    ports_own_keys in_ports ->
    exists m',
      push_all sw keys v (Machine in_ports w tr) = (Ok tt, m')
      /\ fired_out (trace m')
         = fired_out tr ++ replicate (length (filter (.= k) keys)) v
      /\ env m'
         = Nat.iter (length (filter (.= k) keys)) (deliver (out_port sw) v) w
      /\ dom (node m') = list_to_set keys ∪ dom in_ports.
Proof.
  intros Hindex Hg. induction keys as [|kj rest IH]; intros in_ports w tr Hown.
  - exists (Machine in_ports w tr). simpl. rewrite app_nil_r.
    split; [done|]. split; [done|]. split; [done|].
    by rewrite (left_id_L ∅ (∪)).
  - simpl.
    pose proof (push_one_run sw g k kj v in_ports w tr Hown Hindex Hg) as Hone.
    destruct (IH (after_in in_ports kj)
                 (if bool_decide (kj = k) then deliver (out_port sw) v w else w)
                 (tr ++ PullControl
                     :: (if bool_decide (kj = k) then [FireOut v] else []))
                 (after_in_own_keys in_ports kj Hown))
      as (m' & Hrun & Hfired & Henv & Hdom).
    exists m'. split; [|split; [|split]].
    + change (push_all sw (kj :: rest) v)
        with (p ← in_ sw kj; port_receive sw p v;; push_all sw rest v).
      cbv [mbind M_bind] in Hone |- *.
      destruct (in_ sw kj (Machine in_ports w tr)) as [[p|e] m1]; [|done].
      by rewrite Hone.
    + rewrite Hfired, fired_out_app, <- app_assoc. f_equal.
      destruct (decide (kj = k)) as [Heq|Hne].
      * rewrite filter_cons_True by done.
        by rewrite bool_decide_eq_true_2.
      * rewrite filter_cons_False by done.
        by rewrite bool_decide_eq_false_2.
    + rewrite Henv. destruct (decide (kj = k)) as [Heq|Hne].
      * rewrite filter_cons_True by done.
        rewrite bool_decide_eq_true_2 by done.
        symmetry. apply Nat.iter_succ_r.
      * rewrite filter_cons_False by done.
        by rewrite bool_decide_eq_false_2.
    + rewrite Hdom.
      destruct (event_switch_dom in_ports kj) as [-> _]. simpl.
      by rewrite (assoc_L (∪)), (comm_L (∪) _ {[kj]}).
Qed.

Lemma filter_eq_NoDup (k : K) (keys : list K) :
  NoDup keys ->
  length (filter (.= k) keys) = if bool_decide (k ∈ keys) then 1 else 0.
Proof.
  induction 1 as [|kj rest Hnotin Hnodup IH]; [done|].
  destruct (decide (kj = k)) as [Heq|Hne].
  - rewrite filter_cons_True by done. subst kj. simpl. rewrite IH.
    rewrite bool_decide_eq_false_2 by done.
    rewrite bool_decide_eq_true_2; [done|]. apply list_elem_of_here.
  - rewrite filter_cons_False by done. rewrite IH.
    rewrite (bool_decide_ext (k ∈ kj :: rest) (k ∈ rest)); [done|].
    rewrite elem_of_cons. split; [|by right].
    intros [Heq|Hin]; [by destruct Hne|done].
Qed.

(** X5: with the control steady at [k], one event pushed into the input
    ports of pairwise different keys comes out once when [k] is among the
    keys and not at all otherwise: at most one input is forwarded.  The
    run returns normally, and afterwards the map holds a port for every
    key pushed to. *)
Theorem event_switch_one_input_forwarded sw (g : ext W K) (k : K) (v : T)
    (keys : list K) in_ports (w : W) (tr : list (obs T)) :
  NoDup keys ->
  ports_own_keys in_ports ->
  index sw = Some g ->
  (forall w', g w' = (Ok k, w')) ->
  exists m',
    push_all sw keys v (Machine in_ports w tr) = (Ok tt, m')
    /\ fired_out (trace m')
       = fired_out tr ++ (if bool_decide (k ∈ keys) then [v] else [])
    /\ env m' = (if bool_decide (k ∈ keys) then deliver (out_port sw) v w else w)
    /\ dom (node m') = list_to_set keys ∪ dom in_ports.
Proof.
  intros Hnodup Hown Hindex Hg.
  destruct (push_all_run sw g k v keys Hindex Hg in_ports w tr Hown)
    as (m' & Hrun & Hfired & Henv & Hdom).
  exists m'. rewrite (filter_eq_NoDup k keys Hnodup) in Hfired, Henv.
  split; [done|]. split; [|split; [|done]].
  - rewrite Hfired. by destruct (bool_decide (k ∈ keys)).
  - rewrite Henv. by destruct (bool_decide (k ∈ keys)).
Qed.

(** X6: when the control cannot be read, an event arriving at a stored
    port is not forwarded and is not dropped silently either: the
    control's exception reaches the sender, nothing is fired, and the map
    of inputs stays as it is. *)
Theorem event_switch_control_failure sw (p : port_t K) (v : T)
    (m : machine (gmap K (port_t K)) W (obs T)) :
  is_Some (node m !! captured_port p) ->
  (index sw = None ->
   port_receive sw p v m
   = (Throw unbound_sink,
      Machine (node m) (env m) (trace m ++ [PullControl])))
  /\ (forall (g : ext W K) (e : exn) (w1 : W),
        index sw = Some g ->
        g (env m) = (Throw e, w1) ->
        port_receive sw p v m
        = (Throw e, Machine (node m) w1 (trace m ++ [PullControl]))).
Proof.
  intros Hstored. unfold port_receive.
  rewrite (forward_call_stored sw v _ m Hstored). destruct m as [n w tr].
  split.
  - intros ->. by rewrite (bind_throw _ _ _ _ _ (sink_get_unbound _ _ _ _)).
  - intros g e w1 -> Hg. simpl in Hg.
    erewrite bind_throw; [done|]. by rewrite sink_get_bound, Hg.
Qed.
End event_switch_more.

(** Twice [in("B")] on a fresh switch. *)
Lemma event_switch_in_idempotent_witness :
  (p1 ← EventSwitch.in_ Samples.event_switch "B"%string;
   p2 ← EventSwitch.in_ Samples.event_switch "B"%string;
   mret (p1, p2)) (Machine ∅ [] [])
  = (Ok ({| EventSwitch.captured_port := "B"%string |},
         {| EventSwitch.captured_port := "B"%string |}),
     Machine (EventSwitch.after_in ∅ "B"%string) [] [])
  /\ dom (EventSwitch.after_in (K := string) ∅ "B"%string) = {["B"%string]} ∪ dom (∅ : gmap string (EventSwitch.port_t string))
  /\ (forall k' p,
        (∅ : gmap string (EventSwitch.port_t string)) !! k' = Some p ->
        EventSwitch.after_in ∅ "B"%string !! k' = Some p).
Proof.
  exact (event_switch_in_idempotent Samples.event_switch "B"%string ∅ [] []
           ports_own_keys_empty).
Defined.

(** The value 7 pushed into the inputs "B", "A" and "C" of the sample
    switch, whose control is held at "A". *)
Lemma event_switch_one_input_forwarded_witness :
  exists m',
    Clients.push_all Samples.event_switch ["B"; "A"; "C"]%string 7%Z
      (Machine ∅ [] []) = (Ok tt, m')
    /\ Clients.fired_out (trace m')
       = Clients.fired_out [] ++
         (if bool_decide ("A"%string ∈ ["B"; "A"; "C"]%string) then [7%Z] else [])
    /\ env m'
       = (if bool_decide ("A"%string ∈ ["B"; "A"; "C"]%string)
          then deliver (EventSwitch.out_port Samples.event_switch) 7%Z []
          else [])
    /\ dom (node m') = list_to_set ["B"; "A"; "C"]%string ∪ dom (∅ : gmap string (EventSwitch.port_t string)).
Proof.
  apply (event_switch_one_input_forwarded Samples.event_switch
           (Samples.constant "A"%string) "A"%string 7%Z
           ["B"; "A"; "C"]%string ∅ [] []).
  - apply (bool_decide_unpack _). vm_compute. exact I.
  - apply ports_own_keys_empty.
  - reflexivity.
  - intros w'. reflexivity.
Defined.

(** An event arriving at a stored port of a switch whose control was never
    connected. *)
Lemma event_switch_control_failure_witness :
  EventSwitch.port_receive Clients.uncontrolled_switch
    {| EventSwitch.captured_port := "A"%string |} 7%Z
    (Machine (EventSwitch.after_in ∅ "A"%string) [] [])
  = (Throw unbound_sink,
     Machine (EventSwitch.after_in ∅ "A"%string) [] [EventSwitch.PullControl]).
Proof.
  exact (proj1 (event_switch_control_failure Clients.uncontrolled_switch
                  {| EventSwitch.captured_port := "A"%string |} 7%Z
                  (Machine (EventSwitch.after_in ∅ "A"%string) [] [])
                  (mk_is_Some _ _ eq_refl))
           eq_refl).
Defined.

(** ** watch_node: failing source, whole runs *)

Section watch_more.
Context {W T PS : Type}.
Import Watch.

(** X7: when the state behind [in] cannot be read, because the sink is
    unbound or because its source throws, the tick ends with that
    exception after the one read: the predicate is not evaluated and keeps
    its state, and nothing is fired. *)
Theorem check_tick_source_failure (n : watch_node W T PS) (s : PS) (w : W)
    (tr : list (obs T)) :
  (in_port n = None ->
   check_tick n (Machine s w tr)
   = (Throw unbound_sink, Machine s w (tr ++ [ReadIn])))
  /\ (forall (g : ext W T) (e : exn) (w1 : W),
        in_port n = Some g ->
        g w = (Throw e, w1) ->
        check_tick n (Machine s w tr)
        = (Throw e, Machine s w1 (tr ++ [ReadIn]))).
Proof.
  unfold check_tick. split.
  - intros ->. by rewrite (bind_throw _ _ _ _ _ (sink_get_unbound _ _ _ _)).
  - intros g e w1 -> Hg. erewrite bind_throw; [done|].
    by rewrite sink_get_bound, Hg.
Qed.
End watch_more.

(** The [on_changed] sample once its source has nothing left to show. *)
Lemma check_tick_source_failure_witness :
  Watch.check_tick Samples.changed_watch (Machine (Some 7%Z) [] [])
  = (Throw foreign_exception, Machine (Some 7%Z) [] [Watch.ReadIn]).
Proof.
  exact (proj2 (check_tick_source_failure Samples.changed_watch (Some 7%Z) [] [])
           Samples.replay foreign_exception [] eq_refl eq_refl).
Defined.

Section filter_watch_facts.
Context {T : Type}.
Import Watch Clients.

Lemma fired_app (tr1 tr2 : list (obs T)) :
  fired (tr1 ++ tr2) = fired tr1 ++ fired tr2.
Proof. apply omap_app. Qed.

Lemma reads_app (tr1 tr2 : list (obs T)) :
  reads (tr1 ++ tr2) = reads tr1 + reads tr2.
Proof. unfold reads. by rewrite List.filter_app, length_app. Qed.

Lemma filter_watch_tick (p : T -> bool) (x : T) (xs acc : list T)
    (tr : list (obs T)) :
  check_tick (filter_watch p) (Machine tt (x :: xs, acc) tr)
  = (Ok tt,
     Machine tt (xs, if p x then acc ++ [x] else acc)
       (tr ++ [ReadIn; EvalPred x (p x)]
           ++ (if p x then [FireOut x] else []))).
Proof.
  rewrite (check_tick_run (filter_watch p) observed x tt (x :: xs, acc)
             (xs, acc) tr eq_refl eq_refl).
  simpl. by destruct (p x).
Qed.

(** X8: a watch node with a predicate without state, ticked once per value
    its source shows, reads every value once and fires exactly the values
    that satisfy the predicate, in the order they were shown; each is
    delivered to the sink during the tick that read it. *)
Theorem watch_fires_filtered (p : T -> bool) (xs acc : list T)
    (tr : list (obs T)) :
  exists m',
    tick_times (filter_watch p) (length xs) (Machine tt (xs, acc) tr)
    = (Ok tt, m')
    /\ env m' = ([], acc ++ List.filter p xs)
    /\ fired (trace m') = fired tr ++ List.filter p xs
    /\ reads (trace m') = reads tr + length xs.
Proof.
  revert acc tr. induction xs as [|x xs IH]; intros acc tr.
  - exists (Machine tt ([], acc) tr). simpl. rewrite !app_nil_r.
    repeat split; lia.
  - destruct (IH (if p x then acc ++ [x] else acc)
                 (tr ++ [ReadIn; EvalPred x (p x)]
                     ++ (if p x then [FireOut x] else [])))
      as (m' & Hrun & Henv & Hfired & Hreads).
    exists m'. split; [|split; [|split]].
    + simpl. erewrite bind_ok; [exact Hrun|]. apply filter_watch_tick.
    + rewrite Henv. simpl. destruct (p x); [|done].
      by rewrite <- app_assoc.
    + rewrite Hfired, !fired_app. simpl.
      destruct (p x); simpl; by rewrite <- app_assoc.
    + rewrite Hreads, !reads_app. simpl.
      destruct (p x); simpl; unfold reads; simpl; lia.
Qed.
End filter_watch_facts.

(** ** on_changed over a whole sequence *)

Section repeat_watch_facts.
Context {T : Type} `{EqDecision T}.
Import Watch Clients.

Lemma repeat_watch_ticks (count : nat) (last : option T) (x : T)
    (xs acc : list T) :
  run_ticks repeat_watch (S count) last (x :: xs, acc)
  = (if bool_decide (last = Some x) then [x] else [])
    :: run_ticks repeat_watch count (Some x)
         (xs, if bool_decide (last = Some x) then acc ++ [x] else acc).
Proof.
  simpl.
  rewrite (check_tick_run repeat_watch observed x last (x :: xs, acc)
             (xs, acc) [] eq_refl eq_refl).
  simpl. destruct last as [l|]; simpl.
  - destruct (decide (l = x)) as [->|Hne].
    + rewrite (bool_decide_eq_true_2 (x = x)) by done.
      by rewrite (bool_decide_eq_true_2 (Some x = Some x)).
    + rewrite (bool_decide_eq_false_2 (l = x)) by done.
      rewrite (bool_decide_eq_false_2 (Some l = Some x)); [done|congruence].
  - reflexivity.
Qed.

(** X9: over any sequence of observed values, the [on_changed] node fires
    on a tick exactly when the value read on it equals the value read on
    the tick before (for the first tick: the value the predicate already
    holds, none on a fresh node); it then fires that value.  So a fresh
    node never fires on its first tick, and never on a tick whose value
    differs from the previous one. *)
Theorem on_changed_fires_iff_repeat (xs : list T) (last : option T)
    (acc : list T) (i : nat) (x : T) :
  xs !! i = Some x ->
  run_ticks repeat_watch (length xs) last (xs, acc) !! i
  = Some (if bool_decide (match i with
                          | O => last
                          | S j => xs !! j
                          end = Some x)
          then [x] else []).
Proof.
  revert last acc i. induction xs as [|x0 xs IH]; intros last acc i Hi.
  - by rewrite lookup_nil in Hi.
  - change (length (x0 :: xs)) with (S (length xs)).
    rewrite repeat_watch_ticks. destruct i as [|i]; simpl in *.
    + by injection Hi as ->.
    + rewrite (IH (Some x0) _ i Hi). by destruct i.
Qed.
End repeat_watch_facts.

(** Over 5,5,5,6,6,7: tick 4, where the value changes to 6, fires nothing;
    tick 5, which repeats the 6, fires it. *)
Lemma on_changed_fires_iff_repeat_witness :
  Watch.run_ticks Clients.repeat_watch 6 None ([5; 5; 5; 6; 6; 7]%Z, []) !! 3
  = Some []
  /\ Watch.run_ticks Clients.repeat_watch 6 None ([5; 5; 5; 6; 6; 7]%Z, []) !! 4
     = Some [6%Z].
Proof.
  split.
  - exact (on_changed_fires_iff_repeat [5; 5; 5; 6; 6; 7]%Z None [] 3 6%Z eq_refl).
  - exact (on_changed_fires_iff_repeat [5; 5; 5; 6; 6; 7]%Z None [] 4 6%Z eq_refl).
Defined.

(** ** transform_node: failing parameter, repeated evaluation *)

Section transform_more.
Context {W T P R : Type}.
Import Transform.

(** X10: when the parameter cannot be pulled, because [param] is unbound or
    because its source throws, the evaluation ends with that exception
    after the one pull, and [op] is not invoked. *)
Theorem transform_param_failure (n : transform_node W T P R) (x : T) (w : W)
    (tr : list (obs T P)) :
  (param n = None ->
   call n x (Machine tt w tr)
   = (Throw unbound_sink, Machine tt w (tr ++ [PullParam])))
  /\ (forall (g : ext W P) (e : exn) (w1 : W),
        param n = Some g ->
        g w = (Throw e, w1) ->
        call n x (Machine tt w tr)
        = (Throw e, Machine tt w1 (tr ++ [PullParam]))
        /\ op_calls (tr ++ [PullParam]) = op_calls tr).
Proof.
  unfold call. split.
  - intros ->. by rewrite (bind_throw _ _ _ _ _ (sink_get_unbound _ _ _ _)).
  - intros g e w1 -> Hg. split.
    + erewrite bind_throw; [done|]. by rewrite sink_get_bound, Hg.
    + rewrite op_calls_app. unfold op_calls at 2. simpl. lia.
Qed.

(** X11: the node keeps nothing between evaluations: two evaluations in a
    row pull the parameter twice, the second pull made in the world the
    first evaluation left, and each result is built from the parameter of
    its own pull. *)
Theorem transform_pulls_every_time (n : transform_node W T P R) (x1 x2 : T)
    (g : ext W P) (p1 p2 : P) (r1 : R) (w w1 w2 w3 : W) (tr : list (obs T P)) :
  param n = Some g ->
  g w = (Ok p1, w1) ->
  op n x1 p1 w1 = (Ok r1, w2) ->
  g w2 = (Ok p2, w3) ->
  (a ← call n x1; b ← call n x2; mret (a, b)) (Machine tt w tr)
  = (pair r1 <$> (op n x2 p2 w3).1,
     Machine tt (op n x2 p2 w3).2
       (tr ++ [PullParam; CallOp x1 p1; PullParam; CallOp x2 p2])).
Proof.
  intros Hparam Hg1 Hop1 Hg2.
  erewrite bind_ok; last first.
  { rewrite (call_bound n x1 g p1 w w1 tr Hparam Hg1), Hop1. reflexivity. }
  cbv [mbind M_bind]. rewrite (call_bound n x2 g p2 w2 w3 _ Hparam Hg2).
  rewrite <- app_assoc. simpl. by destruct (op n x2 p2 w3) as [[r2|e] w4].
Qed.
End transform_more.

(** The adder fed by the counter, evaluated twice on 3: 3 + 4, then 3 + 5. *)
Lemma transform_pulls_every_time_witness :
  (a ← Transform.call Samples.adder 3%Z;
   b ← Transform.call Samples.adder 3%Z;
   mret (a, b)) (Machine tt 4 [])
  = (Ok (7%Z, 8%Z),
     Machine tt 6
       [Transform.PullParam; Transform.CallOp 3%Z 4%Z;
        Transform.PullParam; Transform.CallOp 3%Z 5%Z]).
Proof.
  exact (transform_pulls_every_time Samples.adder 3%Z 3%Z Samples.counter
           4%Z 5%Z 7%Z 4 5 5 6 [] eq_refl eq_refl eq_refl eq_refl).
Defined.

(** The adder on a parameter source that throws. *)
Lemma transform_param_failure_witness :
  Transform.call Clients.starved_adder 3%Z (Machine tt 4 [])
  = (Throw foreign_exception, Machine tt 5 [Transform.PullParam])
  /\ Transform.op_calls ([] ++ [Transform.PullParam (T := Z) (P := Z)])
     = Transform.op_calls (T := Z) (P := Z) [].
Proof.
  exact (proj2 (transform_param_failure Clients.starved_adder 3%Z 4 [])
           (fun s => (Throw foreign_exception, S s)) foreign_exception 5
           eq_refl eq_refl).
Defined.

(** ** Settings: exceptions that escape, and the setting class *)

Section settings_more.
Context {W D A : Type}.
Import Settings.

Implicit Types (load : string -> D -> A -> outcome unit * D * A).
Implicit Types (setter : setter_t W D) (id : setting_id).

(** X12: the json-file backend swallows [cereal::Exception] only: any
    other exception raised while reading the archive leaves
    [register_setting] as it is, and the setter is not called at all,
    whatever the read has written into [value]. *)
Theorem json_register_setting_foreign_escapes load id (initial v : D) setter
    (a a' : A) (w : W) (tr : list (obs D)) (e : exn) :
  load (key id) initial a = (Throw e, v, a') ->
  e ≠ cereal_Exception ->
  let '(r, m') :=
    json_file_setting_facade.register_setting load id initial setter
      (Machine a w tr) in
  r = Throw e
  /\ node m' = a'
  /\ env m' = w
  /\ setter_calls (trace m') = setter_calls tr.
Proof.
  intros Hload He.
  by rewrite (json_register_foreign load id initial v setter a a' w tr e
                Hload He).
Qed.

(** X16: the const backend calls the setter once, with [initial].  The
    json-file backend, when the read returns or raises a
    [cereal::Exception], calls the setter once, with what the read left in
    [value]: the value read when it returned, and [initial] when it failed
    without writing.  Either call ends as the setter ends. *)
Theorem register_setting_one_setter_call load id (initial : D) setter (a : A)
    (w : W) (tr : list (obs D)) :
  const_setting_backend_facade.register_setting id initial setter
    (Machine tt w tr)
  = ((setter initial w).1,
     Machine tt (setter initial w).2 (tr ++ [CallSetter initial]))
  /\ (forall (r : outcome unit) (v : D) (a' : A),
        load (key id) initial a = (r, v, a') ->
        (forall e, r = Throw e -> e = cereal_Exception) ->
        let '(r', m') :=
          json_file_setting_facade.register_setting load id initial setter
            (Machine a w tr) in
        r' = (setter v w).1
        /\ node m' = a'
        /\ env m' = (setter v w).2
        /\ setter_calls (trace m') = setter_calls tr ++ [v]).
Proof.
  split; [apply call_setter_run|].
  intros r v a' Hload Hcereal. destruct r as [[]|e].
  - rewrite (json_register_read load id initial v setter a a' w tr Hload).
    simpl. by rewrite setter_calls_app.
  - rewrite (Hcereal e eq_refl) in Hload.
    rewrite (json_register_cereal load id initial v setter a a' w tr Hload).
    simpl. by rewrite setter_calls_app.
Qed.
End settings_more.

Section setting_class.
Context {D A : Type}.
Import Settings.

Implicit Types (load : string -> D -> A -> outcome unit * D * A).
Implicit Types (id : setting_id).

(** X13: a [setting] over the const backend holds its initial value.  A
    [setting] over the json-file backend holds the value the archive read
    for its key; when reading raises a [cereal::Exception] the constructor
    does not throw, and the setting holds what the failed read left in the
    variable, which is the initial value when the read wrote nothing.  The
    constructor throws only on an exception that is not a
    [cereal::Exception]. *)
Theorem setting_value load id (a : A) (initial : D) :
  Clients.const_setting_value id initial = Ok initial
  /\ (forall (v : D) (a' : A),
        load (key id) initial a = (Ok tt, v, a') ->
        json_setting_value load id a initial = Ok v)
  /\ (forall (v : D) (a' : A),
        load (key id) initial a = (Throw cereal_Exception, v, a') ->
        json_setting_value load id a initial = Ok v)
  /\ (forall (e : exn) (v : D) (a' : A),
        load (key id) initial a = (Throw e, v, a') ->
        e ≠ cereal_Exception ->
        json_setting_value load id a initial = Throw e).
Proof.
  split; [reflexivity|]. unfold json_setting_value. split; [|split].
  - intros v a' Hload.
    by rewrite (json_register_read load id initial v write_cache a a'
                  initial [] Hload).
  - intros v a' Hload.
    by rewrite (json_register_cereal load id initial v write_cache a a'
                  initial [] Hload).
  - intros e v a' Hload He.
    by rewrite (json_register_foreign load id initial v write_cache a a'
                  initial [] e Hload He).
Qed.
End setting_class.

(** A read that fails with a foreign exception escapes; the cache keeps 42
    and the setter is never called. *)
Lemma json_register_setting_foreign_escapes_witness :
  let '(r, m') :=
    Settings.json_file_setting_facade.register_setting Clients.broken_load
      Samples.my_key 42%Z Settings.write_cache (Machine tt 42%Z []) in
  r = Throw foreign_exception
  /\ node m' = tt
  /\ env m' = 42%Z
  /\ Settings.setter_calls (trace m') = Settings.setter_calls [].
Proof.
  apply (json_register_setting_foreign_escapes Clients.broken_load
           Samples.my_key 42%Z 42%Z Settings.write_cache tt tt 42%Z []
           foreign_exception eq_refl).
  discriminate.
Defined.

(** A stream that lacks the key, read into an integer setting: the setter
    is called once, with the initial 42. *)
Lemma register_setting_one_setter_call_witness :
  let '(r', m') :=
    Settings.json_file_setting_facade.register_setting Settings.json_load
      Samples.my_key 42%Z Settings.write_cache
      (Machine Samples.stream_other_key 0%Z []) in
  r' = (Settings.write_cache 42%Z 0%Z).1
  /\ node m' = Samples.stream_other_key
  /\ env m' = (Settings.write_cache 42%Z 0%Z).2
  /\ Settings.setter_calls (trace m') = Settings.setter_calls [] ++ [42%Z].
Proof.
  apply (proj2 (register_setting_one_setter_call Settings.json_load
                  Samples.my_key 42%Z Settings.write_cache
                  Samples.stream_other_key 0%Z [])
           (Throw cereal_Exception) 42%Z Samples.stream_other_key eq_refl).
  intros e He. by injection He as <-.
Defined.

(** The integer setting on a stream with and without its key; the point
    setting on a stream that stores it whole and on one that stores half
    of it; the broken archive. *)
Lemma setting_value_witness :
  Settings.json_setting_value Settings.json_load Samples.my_key
    Samples.stream_with_key 42%Z = Ok 7%Z
  /\ Settings.json_setting_value Settings.json_load Samples.my_key
       Samples.stream_other_key 42%Z = Ok 42%Z
  /\ Settings.json_setting_value Settings.point_load Samples.my_key
       Samples.stream_whole_point (1, 2)%Z = Ok (13, 21)%Z
  /\ Settings.json_setting_value Settings.point_load Samples.my_key
       Samples.stream_half_point (1, 2)%Z = Ok (13, 2)%Z
  /\ Settings.json_setting_value Clients.broken_load Samples.my_key tt 42%Z
     = Throw foreign_exception.
Proof.
  split; [|split; [|split; [|split]]].
  - exact (proj1 (proj2 (setting_value Settings.json_load Samples.my_key
                           Samples.stream_with_key 42%Z))
             7%Z Samples.stream_with_key eq_refl).
  - exact (proj1 (proj2 (proj2 (setting_value Settings.json_load Samples.my_key
                                  Samples.stream_other_key 42%Z)))
             42%Z Samples.stream_other_key eq_refl).
  - exact (proj1 (proj2 (setting_value Settings.point_load Samples.my_key
                           Samples.stream_whole_point (1, 2)%Z))
             (13, 21)%Z Samples.stream_whole_point eq_refl).
  - exact (proj1 (proj2 (proj2 (setting_value Settings.point_load Samples.my_key
                                  Samples.stream_half_point (1, 2)%Z)))
             (13, 2)%Z Samples.stream_half_point eq_refl).
  - apply (proj2 (proj2 (proj2 (setting_value Clients.broken_load
                                  Samples.my_key tt 42%Z)))
             foreign_exception 42%Z tt eq_refl).
    discriminate.
Defined.

(** ** Region-aware ports: symmetry, and the wiring of a buffer *)

Section region_more.
Context {region_id tick source_t sink_t : Type}.
Variable region_id_eq : region_id -> region_id -> bool.
Import Region.

Implicit Types (source : region_aware source_t) (sink : region_aware sink_t).
Implicit Types (h : gmap positive (region_info region_id tick)).

Lemma same_region_gone_buffer source sink h :
  h !! parent_region_info source = None
  \/ h !! parent_region_info sink = None ->
  construct_buffer region_id_eq source sink h = Throw null_dereference.
Proof.
  intros Hgone. unfold construct_buffer.
  by rewrite (same_region_gone region_id_eq source sink h Hgone).
Qed.

(** X14: when [operator==] on region ids is symmetric, so is
    [same_region]: swapping the two ports changes neither the answer nor
    whether an empty pointer is dereferenced. *)
Theorem same_region_symmetric source sink h :
  (forall a b : region_id, region_id_eq a b = region_id_eq b a) ->
  same_region region_id_eq source sink h
  = same_region region_id_eq sink source h.
Proof.
  intros Hsym. unfold same_region, lock.
  destruct (h !! parent_region_info source) as [r1|];
    destruct (h !! parent_region_info sink) as [r2|]; simpl; try done.
  by rewrite Hsym.
Qed.

(** X15: whenever [construct_buffer] hands out a real buffer, both parent
    regions are alive, the buffer's [in_switch] is wired to the switch
    tick of the source's region and its [in_send] to the work tick of the
    sink's region. *)
Theorem construct_buffer_wiring source sink h (s w : tick) :
  construct_buffer region_id_eq source sink h = Ok (buffer s w) ->
  exists r1 r2 : region_info region_id tick,
    h !! parent_region_info source = Some r1
    /\ h !! parent_region_info sink = Some r2
    /\ s = switch_tick r1
    /\ w = work_tick r2.
Proof.
  intros Hbuf.
  destruct (h !! parent_region_info source) as [r1|] eqn:H1; last first.
  { by rewrite (same_region_gone_buffer source sink h (or_introl H1)) in Hbuf. }
  destruct (h !! parent_region_info sink) as [r2|] eqn:H2; last first.
  { by rewrite (same_region_gone_buffer source sink h (or_intror H2)) in Hbuf. }
  rewrite (construct_buffer_alive region_id_eq source sink h r1 r2 H1 H2) in Hbuf.
  exists r1, r2. destruct (region_id_eq _ _); [|done].
  by injection Hbuf as <- <-.
Qed.
End region_more.

(** Ids compared with [Nat.eqb]. *)
Lemma same_region_symmetric_witness :
  Region.same_region Nat.eqb Samples.out_in_a Samples.in_in_b Samples.regions
  = Region.same_region Nat.eqb Samples.in_in_b Samples.out_in_a Samples.regions.
Proof.
  apply (same_region_symmetric Nat.eqb Samples.out_in_a Samples.in_in_b
           Samples.regions).
  intros a b. apply Nat.eqb_sym.
Defined.

(** The buffer built for two ports of region a. *)
Lemma construct_buffer_wiring_witness :
  exists r1 r2 : Region.region_info nat string,
    Samples.regions !! Region.parent_region_info Samples.out_in_a = Some r1
    /\ Samples.regions !! Region.parent_region_info Samples.in_in_a = Some r2
    /\ "a.switch"%string = Region.switch_tick r1
    /\ "a.work"%string = Region.work_tick r2.
Proof.
  exact (construct_buffer_wiring Nat.eqb Samples.out_in_a Samples.in_in_a
           Samples.regions "a.switch"%string "a.work"%string eq_refl).
Defined.
